(** * Verification of the software timer (timer.hpp, namespace stroll)

    A shallow embedding of [TimerNode], [MinHeap], [TimerManager] and [Timer].
    The repository holds two revisions of timer.hpp with the same [MinHeap];
    the one modelled here is the earlier, which reads the clock with
    [clock_gettime] and uses [(uint64_t)-1] as the "never" deadline.

    Data model.
    - [uint32_t] / [unsigned] values are [Z] in [0, 2^32), [uint64_t] /
      [unsigned long] values are [Z] in [0, 2^64) (LP64, as implied by the
      POSIX [clock_gettime] the code calls); every arithmetic result is
      wrapped explicitly with [wrap32] / [wrap64].
    - A [TimerHandler] is a [std::shared_ptr<TimerNode>]: the nodes live in an
      arena [nodes] and a non-null handler is an index into it, so that the
      heap's vector and every outstanding handle alias the same node.
    - [std::vector::at] throws [std::out_of_range]; that and undefined
      behaviour (null dereference, unchecked [operator[]] out of range) are
      explicit error results.
    - The two [while] loops of [percolate_up] / [percolate_down] are
      fuel-bounded fixpoints; exhausting the fuel is a distinct error, and the
      theorems below show it never happens on well-formed heaps.
    - The monotonic clock [get_system_ns()] is an input of every operation
      that reads it. *)

From Stdlib Require Import ZArith Lia Ascii.
From stdpp Require Import base list strings.

Local Open Scope Z_scope.

(** [lia] also decides goals with division and remainder by a constant. *)
Ltac Zify.zify_post_hook ::= Z.div_mod_to_equations.

(** ** Machine integers *)

Definition wrap32 (x : Z) : Z := x mod 2 ^ 32.
Definition wrap64 (x : Z) : Z := x mod 2 ^ 64.

(** [(uint64_t)-1], the "never" deadline of a stopped timer. *)
Definition UINT64_MAX : Z := 2 ^ 64 - 1.

(** ** Errors *)

Inductive fault :=
| OutOfRange   (* std::out_of_range thrown by vector::at *)
| BadDeref     (* undefined behaviour: null / unowned pointer, operator[] out of range *)
| OutOfFuel.   (* the loop bound of the model was exhausted *)

Inductive res (A : Type) :=
| Ok (a : A)
| Err (f : fault).
Arguments Ok {A} a.
Arguments Err {A} f.

Definition bind {A B} (m : res A) (k : A → res B) : res B :=
  match m with
  | Ok a => k a
  | Err f => Err f
  end.

Notation "'do' x <- m ; k" := (bind m (fun x => k))
  (at level 10, x name, m at level 100, k at level 200).

(** ** TimerNode *)

(** A non-null pointer to a [TimerNode]: its position in the arena. *)
Abbreviation ptr := nat (only parsing).

(** [TimerHandler = std::shared_ptr<TimerNode>]; [None] is [nullptr]. *)
Definition TimerHandler := option ptr.

(** [func] is [Some id] for a callable target, [None] for an empty
    [std::function]. *)
Record TimerNode := mkNode {
  name : string;
  func : option nat;
  index : Z;
  interval_ns : Z;
  delay_ns : Z;
  next_tp : Z;
  running : bool
}.

(** Default member initialisers of [struct TimerNode]. *)
Definition new_node : TimerNode :=
  {| name := EmptyString; func := None; index := 0; interval_ns := 0;
     delay_ns := 0; next_tp := UINT64_MAX; running := false |}.

Definition with_index (n : TimerNode) (i : Z) : TimerNode :=
  {| name := name n; func := func n; index := i; interval_ns := interval_ns n;
     delay_ns := delay_ns n; next_tp := next_tp n; running := running n |}.

Definition with_next_tp (n : TimerNode) (tp : Z) : TimerNode :=
  {| name := name n; func := func n; index := index n; interval_ns := interval_ns n;
     delay_ns := delay_ns n; next_tp := tp; running := running n |}.

Definition with_interval_ns (n : TimerNode) (i : Z) : TimerNode :=
  {| name := name n; func := func n; index := index n; interval_ns := i;
     delay_ns := delay_ns n; next_tp := next_tp n; running := running n |}.

Definition with_running (n : TimerNode) (b : bool) : TimerNode :=
  {| name := name n; func := func n; index := index n; interval_ns := interval_ns n;
     delay_ns := delay_ns n; next_tp := next_tp n; running := b |}.

(** ** Program state: the node arena and [MinHeap::buff_] *)

Record state := mkState {
  nodes : list TimerNode;
  buff_ : list ptr
}.

Definition init_state : state := {| nodes := []; buff_ := [] |}.

(** [std::make_shared<TimerNode>(n)]: a fresh node, owned by the returned pointer. *)
Definition make_shared (st : state) (n : TimerNode) : state * ptr :=
  ({| nodes := nodes st ++ [n]; buff_ := buff_ st |}, length (nodes st)).

(** [*p] *)
Definition deref (st : state) (p : ptr) : res TimerNode :=
  match nodes st !! p with
  | Some n => Ok n
  | None => Err BadDeref
  end.

(** [*p = n] *)
Definition assign (st : state) (p : ptr) (n : TimerNode) : state :=
  {| nodes := <[p := n]> (nodes st); buff_ := buff_ st |}.

Definition set_index (st : state) (p : ptr) (i : Z) : res state :=
  do n <- deref st p; Ok (assign st p (with_index n i)).

Definition set_next_tp (st : state) (p : ptr) (tp : Z) : res state :=
  do n <- deref st p; Ok (assign st p (with_next_tp n tp)).

(** [operator<(const TimerHandler &, const TimerHandler &)] *)
Definition handler_lt (st : state) (left right : ptr) : res bool :=
  do l <- deref st left;
  do r <- deref st right;
  Ok (next_tp l <? next_tp r).

Module MinHeap.

(** [buff_.size()] *)
Definition size (st : state) : Z := Z.of_nat (length (buff_ st)).

(** [buff_.at(i)] *)
Definition at_ (st : state) (i : Z) : res ptr :=
  match buff_ st !! Z.to_nat i with
  | Some p => Ok p
  | None => Err OutOfRange
  end.

(** [buff_.at(i) = p] *)
Definition at_put (st : state) (i : Z) (p : ptr) : res state :=
  if Z.of_nat (length (buff_ st)) <=? i then Err OutOfRange
  else Ok {| nodes := nodes st; buff_ := <[Z.to_nat i := p]> (buff_ st) |}.

(** [buff_[i] = p], unchecked *)
Definition subscript_put (st : state) (i : Z) (p : ptr) : res state :=
  if Z.of_nat (length (buff_ st)) <=? i then Err BadDeref
  else Ok {| nodes := nodes st; buff_ := <[Z.to_nat i := p]> (buff_ st) |}.

(** [buff_[i]], unchecked *)
Definition subscript (st : state) (i : Z) : res ptr :=
  match buff_ st !! Z.to_nat i with
  | Some p => Ok p
  | None => Err BadDeref
  end.

Definition empty (st : state) : bool :=
  match buff_ st with
  | [] => true
  | _ :: _ => false
  end.

Definition top (st : state) : res ptr := at_ st 0.

Definition find_min_child (st : state) (pos : Z) : res Z :=
  let wrap_pos := wrap32 (pos + 1) in
  let left_pos := wrap32 (wrap32 (Z.shiftl wrap_pos 1) - 1) in
  let right_pos := wrap32 (left_pos + 1) in
  if size st <=? left_pos then Ok pos
  else if size st <=? right_pos then Ok left_pos
  else
    do l <- at_ st left_pos;
    do r <- at_ st right_pos;
    do lt <- handler_lt st l r;
    Ok (if lt : bool then left_pos else right_pos).

(** The [while] loop of [percolate_up]; returns the final [wrap_pos]. *)
Fixpoint percolate_up_loop (fuel : nat) (st : state) (tmp : ptr)
    (wrap_pos wrap_pi : Z) : res (state * Z) :=
  match fuel with
  | O => Err OutOfFuel
  | S fuel' =>
      if 1 <=? wrap_pi then
        do par <- at_ st (wrap32 (wrap_pi - 1));
        do lt <- handler_lt st tmp par;
        if lt : bool then
          let index := wrap32 (wrap_pos - 1) in
          do st1 <- subscript_put st index par;
          do moved <- subscript st1 index;
          do st2 <- set_index st1 moved index;
          percolate_up_loop fuel' st2 tmp wrap_pi (Z.shiftr wrap_pi 1)
        else Ok (st, wrap_pos)
      else Ok (st, wrap_pos)
  end.

Definition percolate_up (st : state) (pos : Z) : res state :=
  let wrap_pos := wrap32 (pos + 1) in
  do tmp <- at_ st pos;
  let wrap_pi := Z.shiftr wrap_pos 1 in
  do r <- percolate_up_loop 33 st tmp wrap_pos wrap_pi;
  let '(st1, wrap_pos) := r in
  if wrap32 (wrap_pos - 1) =? pos then Ok st1
  else
    let index := wrap32 (wrap_pos - 1) in
    do st2 <- set_index st1 tmp index;
    at_put st2 index tmp.

(** The [while] loop of [percolate_down]; returns the final [wrap_pos]. *)
Fixpoint percolate_down_loop (fuel : nat) (st : state) (tmp : ptr)
    (wrap_pos child_index : Z) : res (state * Z) :=
  match fuel with
  | O => Err OutOfFuel
  | S fuel' =>
      if negb (child_index =? wrap32 (wrap_pos - 1)) then
        do child <- at_ st child_index;
        do lt <- handler_lt st child tmp;
        if lt : bool then
          let index := wrap32 (wrap_pos - 1) in
          do st1 <- at_put st index child;
          do moved <- subscript st1 index;
          do st2 <- set_index st1 moved index;
          do next <- find_min_child st2 child_index;
          percolate_down_loop fuel' st2 tmp (wrap32 (child_index + 1)) next
        else Ok (st, wrap_pos)
      else Ok (st, wrap_pos)
  end.

Definition percolate_down (st : state) (pos : Z) : res state :=
  do tmp <- at_ st pos;
  let wrap_pos := wrap32 (pos + 1) in
  do child_index <- find_min_child st pos;
  do r <- percolate_down_loop (S (length (buff_ st))) st tmp wrap_pos child_index;
  let '(st1, wrap_pos) := r in
  if wrap32 (wrap_pos - 1) =? pos then Ok st1
  else
    let index := wrap32 (wrap_pos - 1) in
    do st2 <- set_index st1 tmp index;
    at_put st2 index tmp.

Definition update_top (st : state) (tp : Z) : res state :=
  do sp <- at_ st 0;
  do st1 <- set_next_tp st sp tp;
  percolate_down st1 0.

Definition push (st : state) (h : ptr) : res state :=
  do st1 <- set_index st h (wrap32 (size st));
  Ok {| nodes := nodes st1; buff_ := buff_ st1 ++ [h] |}.

Definition push_and_sort (st : state) (h : ptr) : res state :=
  do st1 <- push st h;
  do n <- deref st1 h;
  percolate_up st1 (index n).

Definition update_place (st : state) (h : ptr) (tp : Z) : res state :=
  do n <- deref st h;
  let old := next_tp n in
  do st1 <- set_next_tp st h tp;
  if tp >? old then
    do n1 <- deref st1 h;
    percolate_down st1 (index n1)
  else if tp <? old then
    do n1 <- deref st1 h;
    percolate_up st1 (index n1)
  else Ok st1.

End MinHeap.

Module TimerManager.

Definition add_timer (st : state) (name : string) (func : option nat)
    (interval_ms delay_ms : Z) : res (state * TimerHandler) :=
  let '(st0, handler) := make_shared st new_node in
  do n <- deref st0 handler;
  let st1 := assign st0 handler
    {| name := name; func := func; index := index n;
       interval_ns := wrap64 (1000 * 1000 * interval_ms);
       delay_ns := wrap64 (1000 * 1000 * delay_ms);
       next_tp := next_tp n; running := running n |} in
  do st2 <- MinHeap.push st1 handler;
  Ok (st2, Some handler).

(** [now] is the value returned by [get_system_ns()]. *)
Definition start (st : state) (handler : TimerHandler) (now : Z) : res (state * Z) :=
  match handler with
  | None => Ok (st, 0)
  | Some h =>
      do n <- deref st h;
      let next_tp := wrap64 (now + delay_ns n) in
      do st1 <- MinHeap.update_place st h next_tp;
      Ok (st1, 0)
  end.

Definition stop (st : state) (handler : TimerHandler) : res (state * Z) :=
  match handler with
  | None => Ok (st, 0)
  | Some h =>
      let next_tp := UINT64_MAX in
      do st1 <- MinHeap.update_place st h next_tp;
      Ok (st1, 0)
  end.

(** [ms * 1000 * 1000] is evaluated in [unsigned] (32-bit) arithmetic. *)
Definition set_interval (st : state) (handler : TimerHandler) (ms : Z) (now : Z)
    : res (state * Z) :=
  match handler with
  | None => Ok (st, 0)
  | Some h =>
      do n <- deref st h;
      let st0 := assign st h (with_interval_ns n (wrap32 (wrap32 (ms * 1000) * 1000))) in
      do n0 <- deref st0 h;
      let next_tp := wrap64 (now + interval_ns n0) in
      do st1 <- MinHeap.update_place st0 h next_tp;
      Ok (st1, 0)
  end.

(** What one iteration of the [while] loop of [check_task] does. *)
Inductive check_outcome :=
| SleepEmpty                 (* heap empty: sleep_checker(10); continue *)
| SleepNotDue                (* root not due: sleep_checker(); continue *)
| ContinueRunning (p : ptr)  (* warning logged for node p; continue *)
| Return (result : ptr).     (* return result *)

(** One iteration of [check_task]; [curr_ns] is the clock reading taken in
    it.  [handler] is a reference to the vector element [buff_[0]], so the
    read of [handler->running] after [update_top] goes through the slot
    again; [result] is a copy of the pointer taken before. *)
Definition check_task_iter (st : state) (curr_ns : Z) : res (state * check_outcome) :=
  if MinHeap.empty st then Ok (st, SleepEmpty)
  else
    do handler <- MinHeap.top st;
    do n <- deref st handler;
    if next_tp n >? curr_ns then Ok (st, SleepNotDue)
    else
      let result := handler in
      let next_tp :=
        if interval_ns n =? 0 then UINT64_MAX else wrap64 (curr_ns + interval_ns n) in
      do st1 <- MinHeap.update_top st next_tp;
      do handler' <- MinHeap.subscript st1 0;
      do n' <- deref st1 handler';
      if running n' then Ok (st1, ContinueRunning handler')
      else Ok (st1, Return result).

(** [check_task]: the loop runs once per clock reading in [clock]; the end
    of the list stands for [exit_flag_] being observed. *)
Fixpoint check_task (st : state) (clock : list Z) : res (state * TimerHandler) :=
  match clock with
  | [] => Ok (st, None)
  | curr_ns :: clock' =>
      do r <- check_task_iter st curr_ns;
      match r with
      | (st1, Return result) => Ok (st1, Some result)
      | (st1, _) => check_task st1 clock'
      end
  end.

Inductive event :=
| Invoke (p : ptr) (f : nat)   (* handler->func() *)
| WarnNoCallback (p : ptr).

(** [check_and_dispatch], as seen by the thread that runs it; the callback
    body itself is opaque. *)
Definition check_and_dispatch (st : state) (clock : list Z)
    : res (state * list event) :=
  do r <- check_task st clock;
  match r with
  | (st1, None) => Ok (st1, [])
  | (st1, Some handler) =>
      do n <- deref st1 handler;
      let st2 := assign st1 handler (with_running n true) in
      let ev := match func n with
                | Some f => Invoke handler f
                | None => WarnNoCallback handler
                end in
      do n2 <- deref st2 handler;
      Ok (assign st2 handler (with_running n2 false), [ev])
  end.

End TimerManager.

Module Timer.

(** A [Timer] object is its [handler_]. *)
Definition construct (st : state) (name : string) (func : option nat)
    (interval_ms delay_ms : Z) : res (state * TimerHandler) :=
  TimerManager.add_timer st name func interval_ms delay_ms.

Definition destruct_ (st : state) (handler_ : TimerHandler) : res state :=
  do r <- TimerManager.stop st handler_; Ok (fst r).

Definition start := TimerManager.start.
Definition stop := TimerManager.stop.
Definition set_interval := TimerManager.set_interval.

(** [unsigned interval() const] *)
Definition interval (st : state) (handler_ : ptr) : res Z :=
  do n <- deref st handler_;
  Ok (wrap32 (interval_ns n / 1000 / 1000)).

End Timer.

(** ** Invariants *)

(** The deadline of the node behind a pointer. *)
Definition nkey (ns : list TimerNode) (p : ptr) : Z :=
  from_option next_tp 0 (ns !! p).

(** Slot invariant: the node stored at slot [i] records [i] as its index. *)
Definition slot_inv (st : state) : Prop :=
  ∀ (i : nat) (p : ptr), buff_ st !! i = Some p →
    ∃ n, nodes st !! p = Some n ∧ index n = Z.of_nat i.

(** The vector is short enough for the 32-bit position arithmetic. *)
Definition small (st : state) : Prop :=
  Z.of_nat (length (buff_ st)) < 2 ^ 31.

Definition is_child (j c : nat) : Prop :=
  (c = 2 * j + 1 ∨ c = 2 * j + 2)%nat.

Definition ord_at (ns : list TimerNode) (l : list ptr) (j c : nat) : Prop :=
  ∀ p q, l !! j = Some p → l !! c = Some q → nkey ns p ≤ nkey ns q.

(** Heap order of a vector of pointers: no child is earlier than its parent. *)
Definition heap_ord (ns : list TimerNode) (l : list ptr) : Prop :=
  ∀ j c, is_child j c → ord_at ns l j c.

(** Two nodes that differ in [index] only. *)
Definition same_data (n n' : TimerNode) : Prop :=
  n' = with_index n (index n').

Definition nodes_same (ns ns' : list TimerNode) : Prop :=
  length ns = length ns' ∧
  ∀ p n, ns !! p = Some n → ∃ n', ns' !! p = Some n' ∧ same_data n n'.

(** State in the middle of a percolation: slot [h] is the hole that [tmp]
    will be written to; every other slot satisfies the slot invariant. *)
Record hole_inv (st : state) (tmp : ptr) (h : nat) : Prop := {
  hole_lt : (h < length (buff_ st))%nat;
  hole_small : small st;
  hole_tmp : is_Some (nodes st !! tmp);
  hole_slots : ∀ (j : nat) (p : ptr), buff_ st !! j = Some p → j ≠ h →
    p ≠ tmp ∧ ∃ n, nodes st !! p = Some n ∧ index n = Z.of_nat j
}.

(** One loop iteration: pointer [q] (node [n]) is copied into the hole [h]. *)
Definition move (st : state) (h : nat) (q : ptr) (n : TimerNode) : state :=
  {| nodes := <[q := with_index n (Z.of_nat h)]> (nodes st);
     buff_ := <[h := q]> (buff_ st) |}.

(** The vector as it will be once [tmp] is written into the hole. *)
Definition vbuf (st : state) (tmp : ptr) (h : nat) : list ptr :=
  <[h := tmp]> (buff_ st).

(** The code after the loop: write [tmp] into the hole if it moved. *)
Definition finish (st : state) (tmp : ptr) (h pos : nat) (n : TimerNode) : state :=
  if decide (h = pos) then st
  else {| nodes := <[tmp := with_index n (Z.of_nat h)]> (nodes st);
          buff_ := <[h := tmp]> (buff_ st) |}.

(** Loop invariant of [percolate_up] for the heap order: in the vector with
    [tmp] in the hole, only the edge from the hole to its parent may be out
    of order, and the hole's children are not earlier than its parent. *)
Definition up_ord (st : state) (tmp : ptr) (h : nat) : Prop :=
  (∀ j c, is_child j c → c ≠ h → ord_at (nodes st) (vbuf st tmp h) j c) ∧
  (∀ g c, is_child g h → is_child h c → ord_at (nodes st) (vbuf st tmp h) g c).

(** Loop invariant of [percolate_down]: only the edges from the hole to its
    children may be out of order. *)
Definition down_ord (st : state) (tmp : ptr) (h : nat) : Prop :=
  (∀ j c, is_child j c → j ≠ h → ord_at (nodes st) (vbuf st tmp h) j c) ∧
  (∀ g c, is_child g h → is_child h c → ord_at (nodes st) (vbuf st tmp h) g c).

(** The vector is a rearrangement of the one of [st0] and the nodes differ
    from those of [st0] in [index] only. *)
Definition perm_inv (st0 : state) (tmp : ptr) (st : state) (h : nat) : Prop :=
  vbuf st tmp h ≡ₚ buff_ st0 ∧ nodes_same (nodes st0) (nodes st).

(** ** Heap mutations as data *)

(** The mutating entry points of [MinHeap], with the private percolations. *)
Inductive heap_op :=
| OpPush (h : ptr)                    (* push(h) *)
| OpPushAndSort (h : ptr)             (* push_and_sort(h) *)
| OpUpdateTop (tp : Z)                (* update_top(tp) *)
| OpUpdatePlace (h : ptr) (tp : Z)    (* update_place(h, tp) *)
| OpPercolateUp (pos : nat)           (* percolate_up(pos) *)
| OpPercolateDown (pos : nat).        (* percolate_down(pos) *)

Definition run_op (st : state) (op : heap_op) : res state :=
  match op with
  | OpPush h => MinHeap.push st h
  | OpPushAndSort h => MinHeap.push_and_sort st h
  | OpUpdateTop tp => MinHeap.update_top st tp
  | OpUpdatePlace h tp => MinHeap.update_place st h tp
  | OpPercolateUp pos => MinHeap.percolate_up st (Z.of_nat pos)
  | OpPercolateDown pos => MinHeap.percolate_down st (Z.of_nat pos)
  end.

(** How the program calls them: a pushed node is live and not yet in the
    heap, the root is replaced and positions are percolated only where they
    exist, and a repositioned node is in the heap. *)
Definition op_legal (st : state) (op : heap_op) : Prop :=
  match op with
  | OpPush h | OpPushAndSort h =>
      is_Some (nodes st !! h) ∧ (h ∉ buff_ st) ∧
      Z.of_nat (length (buff_ st)) + 1 < 2 ^ 31
  | OpUpdateTop _ => MinHeap.empty st = false
  | OpUpdatePlace h _ => h ∈ buff_ st
  | OpPercolateUp pos | OpPercolateDown pos => (pos < length (buff_ st))%nat
  end.

(** A test driver in the style of [test_min_heap_up] / [test_min_heap_place]:
    insert a freshly made node, or reposition a node made earlier. *)
Inductive heap_cmd :=
| Insert (n : TimerNode)
| Reposition (h : ptr) (tp : Z).

Definition run_cmd (st : state) (c : heap_cmd) : res state :=
  match c with
  | Insert n => let '(st1, h) := make_shared st n in MinHeap.push_and_sort st1 h
  | Reposition h tp => MinHeap.update_place st h tp
  end.

Fixpoint run_cmds (cs : list heap_cmd) (st : state) : res state :=
  match cs with
  | [] => Ok st
  | c :: cs' => do st1 <- run_cmd st c; run_cmds cs' st1
  end.

(** Every repositioned handle was returned by an earlier insertion; [k] is
    the number of nodes made so far. *)
Fixpoint legal_cmds (k : nat) (cs : list heap_cmd) : bool :=
  match cs with
  | [] => true
  | Insert _ :: cs' => legal_cmds (S k) cs'
  | Reposition h _ :: cs' => (h <? k)%nat && legal_cmds k cs'
  end.

(** [top()] holds a node that is no later than any node in the heap. *)
Definition root_is_min (st : state) : Prop :=
  match MinHeap.top st with
  | Ok r => ∀ q, q ∈ buff_ st → nkey (nodes st) r ≤ nkey (nodes st) q
  | Err _ => buff_ st = []
  end.

(** [top()->next_tp] *)
Definition root_next_tp (st : state) : res Z :=
  do r <- MinHeap.top st; do n <- deref st r; Ok (next_tp n).

(** [top()->next_tp] after each insertion of the deadlines [tps], in turn. *)
Fixpoint roots_after (st : state) (tps : list Z) : list (res Z) :=
  match tps with
  | [] => []
  | tp :: tps' =>
      match run_cmd st (Insert (with_next_tp new_node tp)) with
      | Ok st1 => root_next_tp st1 :: roots_after st1 tps'
      | Err f => [Err f]
      end
  end.

(** Invariant of the states the test driver reaches. *)
Definition driver_inv (st : state) : Prop :=
  slot_inv st ∧ heap_ord (nodes st) (buff_ st) ∧
  buff_ st ≡ₚ seq 0 (length (nodes st)).

(** ** Concrete states used in examples *)

(** One periodic timer: deadline 100, interval 50. *)
Definition periodic_state : state :=
  {| nodes := [ {| name := "tick"; func := Some 0%nat; index := 0;
                   interval_ns := 50; delay_ns := 0; next_tp := 100;
                   running := false |} ];
     buff_ := [0%nat] |}.

(** Two timers.  Node 0 ("slow", interval 1000) was claimed at clock reading
    1000, so it sits at the root with deadline 2000 while its callback is
    still executing; node 1 ("other") has deadline 2500 and is idle. *)
Definition overlap_state : state :=
  {| nodes := [ {| name := "slow"; func := Some 0%nat; index := 0;
                   interval_ns := 1000; delay_ns := 0; next_tp := 2000;
                   running := true |};
                {| name := "other"; func := Some 1%nat; index := 1;
                   interval_ns := 0; delay_ns := 0; next_tp := 2500;
                   running := false |} ];
     buff_ := [0%nat; 1%nat] |}.

(** Two started timers with deadlines 100 (root) and 200. *)
Definition two_timers : state :=
  {| nodes := [ {| name := "a"; func := None; index := 0;
                   interval_ns := 0; delay_ns := 0; next_tp := 100;
                   running := false |};
                {| name := "b"; func := None; index := 1;
                   interval_ns := 0; delay_ns := 0; next_tp := 200;
                   running := false |} ];
     buff_ := [0%nat; 1%nat] |}.

(** [Timer t("t", f, interval_ms)] followed by [t.set_interval(ms)] and
    [t.interval()], with the clock reading [now] at [set_interval]. *)
Definition interval_after_set (interval_ms ms now : Z) : res Z :=
  do r <- Timer.construct init_state "t" (Some 0%nat) interval_ms 0;
  let '(st1, handler_) := r in
  do r2 <- Timer.set_interval st1 handler_ ms now;
  match handler_ with
  | Some h => Timer.interval (fst r2) h
  | None => Err BadDeref
  end.

(** ** [get_system_ns] *)

(** [long] is 64 bits wide and signed; overflow of signed arithmetic is
    undefined behaviour, which the model reports as [None]. *)
Definition LONG_MIN : Z := - 2 ^ 63.
Definition LONG_MAX : Z := 2 ^ 63 - 1.

Definition long_result (r : Z) : option Z :=
  if (LONG_MIN <=? r) && (r <=? LONG_MAX) then Some r else None.

(** [ts.tv_nsec + ts.tv_sec * 1000 * 1000 * 1000] for the [timespec] that
    [clock_gettime(CLOCK_MONOTONIC, &ts)] filled in, converted to [uint64_t]. *)
Definition get_system_ns (tv_sec tv_nsec : Z) : option Z :=
  match long_result (tv_sec * 1000) with
  | None => None
  | Some s1 =>
      match long_result (s1 * 1000) with
      | None => None
      | Some s2 =>
          match long_result (s2 * 1000) with
          | None => None
          | Some s3 =>
              match long_result (tv_nsec + s3) with
              | None => None
              | Some r => Some (wrap64 r)
              end
          end
      end
  end.

(** ** logger.hpp: [log_base_file_name] *)

Definition PATH_SEP : ascii := "/"%char.
Definition NUL : ascii := Ascii.zero.

(** [file_name[i]] for a C string whose characters are [file_name]: the
    characters, then the terminating NUL; a read past the terminator is
    outside the object. *)
Definition char_at (file_name : list ascii) (i : Z) : res ascii :=
  match file_name !! Z.to_nat i with
  | Some c => Ok c
  | None => if i =? Z.of_nat (length file_name) then Ok NUL else Err BadDeref
  end.

(** The [for] loop of [log_base_file_name]; [i] and [index] are [unsigned]. *)
Fixpoint base_file_name_loop (fuel : nat) (file_name : list ascii)
    (i index : Z) : res Z :=
  match fuel with
  | O => Err OutOfFuel
  | S fuel' =>
      do c <- char_at file_name i;
      if Ascii.eqb c NUL then Ok index
      else
        let index := if Ascii.eqb c PATH_SEP then i else index in
        base_file_name_loop fuel' file_name (wrap32 (i + 1)) index
  end.

(** The result points into [file_name]: it is the string that starts at the
    returned offset. *)
Definition log_base_file_name (file_name : list ascii) : res (list ascii) :=
  do index <- base_file_name_loop (S (length file_name)) file_name 0 0;
  do c <- char_at file_name index;
  if Ascii.eqb c PATH_SEP then Ok (drop (Z.to_nat (index + 1)) file_name)
  else Ok file_name.

(** ** The manager's operations as data *)

(** The deadlines of the nodes in the heap are [uint64_t] values. *)
Definition keys_in_range (st : state) : Prop :=
  ∀ p, p ∈ buff_ st → nkey (nodes st) p ≤ UINT64_MAX.

(** Invariant of the [TimerManager]: slot invariant, heap order, deadlines in
    range, and every node ever made is in the heap exactly once. *)
Definition mgr_inv (st : state) : Prop :=
  slot_inv st ∧ heap_ord (nodes st) (buff_ st) ∧ keys_in_range st ∧
  buff_ st ≡ₚ seq 0 (length (nodes st)).

(** What the public interface of [Timer] and a worker thread do to the
    manager's state. *)
Inductive mgr_op :=
| MAddTimer (name : string) (func : option nat) (interval_ms delay_ms : Z)
| MStart (handler : TimerHandler) (now : Z)
| MStop (handler : TimerHandler)
| MSetInterval (handler : TimerHandler) (ms now : Z)
| MDispatch (clock : list Z).

Definition run_mgr_op (st : state) (op : mgr_op) : res state :=
  match op with
  | MAddTimer name func interval_ms delay_ms =>
      do r <- TimerManager.add_timer st name func interval_ms delay_ms; Ok (fst r)
  | MStart handler now => do r <- TimerManager.start st handler now; Ok (fst r)
  | MStop handler => do r <- TimerManager.stop st handler; Ok (fst r)
  | MSetInterval handler ms now =>
      do r <- TimerManager.set_interval st handler ms now; Ok (fst r)
  | MDispatch clock => do r <- TimerManager.check_and_dispatch st clock; Ok (fst r)
  end.

Fixpoint run_mgr_ops (ops : list mgr_op) (st : state) : res state :=
  match ops with
  | [] => Ok st
  | op :: ops' => do st1 <- run_mgr_op st op; run_mgr_ops ops' st1
  end.

(** A handle is null or was returned by an earlier [add_timer]; [k] is the
    number of timers made so far. *)
Definition legal_handler (k : nat) (handler : TimerHandler) : bool :=
  match handler with
  | None => true
  | Some h => (h <? k)%nat
  end.

Fixpoint legal_mgr_ops (k : nat) (ops : list mgr_op) : bool :=
  match ops with
  | [] => true
  | MAddTimer _ _ _ _ :: ops' => legal_mgr_ops (S k) ops'
  | MStart h _ :: ops' | MStop h :: ops' | MSetInterval h _ _ :: ops' =>
      legal_handler k h && legal_mgr_ops k ops'
  | MDispatch _ :: ops' => legal_mgr_ops k ops'
  end.

(** The fields of a node that no heap operation writes. *)
Definition same_payload (n n' : TimerNode) : Prop :=
  name n' = name n ∧ func n' = func n ∧ interval_ns n' = interval_ns n ∧
  delay_ns n' = delay_ns n ∧ running n' = running n.

(** The node a heap operation re-keys, with its new deadline. *)
Definition rekeyed (st : state) (op : heap_op) : option (nat * Z) :=
  match op with
  | OpUpdateTop tp =>
      match buff_ st !! 0%nat with
      | Some r => Some (r, tp)
      | None => None
      end
  | OpUpdatePlace h tp => Some (h, tp)
  | _ => None
  end.

(** The node a heap operation adds to the vector. *)
Definition pushed (op : heap_op) : list nat :=
  match op with
  | OpPush h | OpPushAndSort h => [h]
  | _ => []
  end.

(** ** Basic facts *)

Lemma wrap32_small x : 0 ≤ x < 2 ^ 32 → wrap32 x = x.
Proof. intros. unfold wrap32. by apply Z.mod_small. Qed.

Lemma wrap64_small x : 0 ≤ x < 2 ^ 64 → wrap64 x = x.
Proof. intros. unfold wrap64. by apply Z.mod_small. Qed.

Lemma shiftr1 x : Z.shiftr x 1 = x / 2.
Proof. by rewrite Z.shiftr_div_pow2. Qed.

Lemma shiftl1 x : Z.shiftl x 1 = 2 * x.
Proof. rewrite Z.shiftl_mul_pow2 by lia. lia. Qed.

Lemma at_of_nat st (j : nat) p :
  buff_ st !! j = Some p → MinHeap.at_ st (Z.of_nat j) = Ok p.
Proof. intros H. unfold MinHeap.at_. by rewrite Nat2Z.id, H. Qed.

Lemma at_0 st p : buff_ st !! 0%nat = Some p → MinHeap.at_ st 0 = Ok p.
Proof. apply (at_of_nat st 0). Qed.

Lemma empty_false_root st :
  MinHeap.empty st = false ↔ ∃ r, buff_ st !! 0%nat = Some r.
Proof.
  unfold MinHeap.empty. destruct (buff_ st) as [|r b]; cbn.
  - split; [done|]. by intros [r Hr].
  - split; [by exists r|done].
Qed.

Lemma deref_lookup st p n : nodes st !! p = Some n → deref st p = Ok n.
Proof. intros H. unfold deref. by rewrite H. Qed.

Lemma nkey_lookup ns p n : ns !! p = Some n → nkey ns p = next_tp n.
Proof. intros H. unfold nkey. by rewrite H. Qed.

Lemma handler_lt_lookup st l r nl nr :
  nodes st !! l = Some nl → nodes st !! r = Some nr →
  handler_lt st l r = Ok (nkey (nodes st) l <? nkey (nodes st) r).
Proof.
  intros Hl Hr. unfold handler_lt.
  rewrite (deref_lookup _ _ _ Hl), (deref_lookup _ _ _ Hr). simpl.
  by rewrite (nkey_lookup _ _ _ Hl), (nkey_lookup _ _ _ Hr).
Qed.

Lemma nkey_insert_index ns q n i p :
  ns !! q = Some n → nkey (<[q := with_index n i]> ns) p = nkey ns p.
Proof.
  intros Hq. unfold nkey. destruct (decide (q = p)) as [->|Hne].
  - rewrite list_lookup_insert_eq by (by eapply lookup_lt_Some). by rewrite Hq.
  - by rewrite list_lookup_insert_ne.
Qed.

(** ** The shared loop step *)

Lemma move_hole_inv st tmp h src q n :
  hole_inv st tmp h → src ≠ h →
  buff_ st !! src = Some q → nodes st !! q = Some n →
  hole_inv (move st h q n) tmp src.
Proof.
  intros [Hlt Hsm [nt Htmp] Hsl] Hne Hsrc Hq.
  destruct (Hsl _ _ Hsrc Hne) as [Hqt (n' & Hn' & Hidx)].
  assert (n' = n) as -> by congruence.
  split; cbn.
  - rewrite length_insert. by eapply lookup_lt_Some.
  - unfold small. cbn. by rewrite length_insert.
  - rewrite list_lookup_insert_ne by done. by exists nt.
  - intros j p Hj Hjs. destruct (decide (j = h)) as [->|Hjh].
    + rewrite list_lookup_insert_eq in Hj by done. injection Hj as <-.
      split; [done|]. exists (with_index n (Z.of_nat h)).
      rewrite list_lookup_insert_eq by (by eapply lookup_lt_Some). done.
    + rewrite list_lookup_insert_ne in Hj by done.
      destruct (Hsl _ _ Hj Hjh) as [Hpt (np & Hnp & Hpi)].
      split; [done|]. exists np. split; [|done].
      rewrite list_lookup_insert_ne; [done|].
      intros ->. assert (np = n) as -> by congruence. lia.
Qed.

Lemma nkey_move st h q n p :
  nodes st !! q = Some n → nkey (nodes (move st h q n)) p = nkey (nodes st) p.
Proof. intros. cbn. by apply nkey_insert_index. Qed.

(** ** Hoare-style rule for the loop of [percolate_up] *)

Section percolate_up_rule.
Variable tmp : ptr.
Variable P : state → nat → Prop.

Hypothesis P_move : ∀ st h par q n,
  hole_inv st tmp h → P st h → is_child par h →
  buff_ st !! par = Some q → nodes st !! q = Some n →
  nkey (nodes st) tmp < nkey (nodes st) q →
  P (move st h q n) par.

Lemma percolate_up_loop_rule fuel : ∀ st (h : nat),
  hole_inv st tmp h → P st h → Z.of_nat h + 1 < 2 ^ Z.of_nat fuel →
  ∃ st' (h' : nat),
    MinHeap.percolate_up_loop fuel st tmp (Z.of_nat h + 1)
      (Z.shiftr (Z.of_nat h + 1) 1) = Ok (st', Z.of_nat h' + 1)
    ∧ hole_inv st' tmp h' ∧ P st' h'
    ∧ (h' = h ∧ st' = st ∨ (h' < h)%nat)
    ∧ (∀ par q, is_child par h' → buff_ st' !! par = Some q →
         nkey (nodes st') q ≤ nkey (nodes st') tmp).
Proof.
  induction fuel as [|fuel IH]; intros st h HW HP Hf.
  { change (2 ^ Z.of_nat 0) with 1 in Hf. lia. }
  cbn [MinHeap.percolate_up_loop]. rewrite shiftr1.
  destruct (Z.leb_spec 1 ((Z.of_nat h + 1) / 2)) as [Hge|Hlt].
  - pose (par := Z.to_nat ((Z.of_nat h + 1) / 2 - 1)).
    assert (Hpar : is_child par h) by (unfold is_child, par; lia).
    assert (Hparh : par ≠ h) by (unfold is_child in Hpar; lia).
    pose proof (hole_lt _ _ _ HW) as Hhlt.
    pose proof (hole_small _ _ _ HW) as Hsm. unfold small in Hsm.
    destruct (lookup_lt_is_Some_2 (buff_ st) par) as [q Hq].
    { unfold is_child in Hpar. lia. }
    destruct (hole_slots _ _ _ HW _ _ Hq Hparh) as [Hqt (n & Hn & Hidx)].
    destruct (hole_tmp _ _ _ HW) as [nt Hnt].
    assert (Hw : wrap32 ((Z.of_nat h + 1) / 2 - 1) = Z.of_nat par).
    { rewrite wrap32_small; unfold par; lia. }
    rewrite Hw, (at_of_nat _ _ _ Hq). cbn [bind].
    rewrite (handler_lt_lookup _ _ _ _ _ Hnt Hn). cbn [bind].
    destruct (Z.ltb_spec (nkey (nodes st) tmp) (nkey (nodes st) q)) as [Hk|Hk].
    + assert (Hwh : wrap32 (Z.of_nat h + 1 - 1) = Z.of_nat h).
      { rewrite wrap32_small; lia. }
      rewrite Hwh. unfold MinHeap.subscript_put.
      destruct (Z.leb_spec (Z.of_nat (length (buff_ st))) (Z.of_nat h)); [lia|].
      cbn [bind]. unfold MinHeap.subscript. cbn [buff_]. rewrite Nat2Z.id.
      rewrite list_lookup_insert_eq by done. cbn [bind].
      unfold set_index, deref. cbn [nodes]. rewrite Hn. cbn [bind].
      change (assign _ q _) with (move st h q n).
      destruct (IH (move st h q n) par) as (st' & h' & Hrun & HW' & HP' & Hle & Hex).
      { by apply move_hole_inv. }
      { by eapply P_move. }
      { rewrite Nat2Z.inj_succ, Z.pow_succ_r in Hf by lia.
        revert Hf. generalize (2 ^ Z.of_nat fuel). unfold par. intros; lia. }
      exists st', h'. split; [|split_and!; try done].
      * assert ((Z.of_nat h + 1) / 2 = Z.of_nat par + 1) as -> by (unfold par; lia).
        exact Hrun.
      * right. unfold is_child in Hpar. lia.
    + exists st, h. split_and!; try done; [by left|].
      intros par' q' Hc Hq'. assert (par' = par) as -> by (unfold is_child in *; lia).
      assert (q' = q) as -> by congruence. done.
  - exists st, h. split_and!; try done; [by left|].
    intros par' q' Hc _. unfold is_child in Hc. lia.
Qed.
End percolate_up_rule.

(** ** [find_min_child] *)

Lemma find_min_child_spec st tmp (h : nat) :
  hole_inv st tmp h →
  ∃ ci : nat, MinHeap.find_min_child st (Z.of_nat h) = Ok (Z.of_nat ci) ∧
    ((ci = h ∧ ∀ c, is_child h c → buff_ st !! c = None) ∨
     (is_child h ci ∧ ∃ qi, buff_ st !! ci = Some qi ∧
        ∀ c q, is_child h c → buff_ st !! c = Some q →
          nkey (nodes st) qi ≤ nkey (nodes st) q)).
Proof.
  intros HW. pose proof (hole_lt _ _ _ HW) as Hhlt.
  pose proof (hole_small _ _ _ HW) as Hsm. unfold small in Hsm.
  unfold MinHeap.find_min_child, MinHeap.size.
  assert (wrap32 (Z.of_nat h + 1) = Z.of_nat h + 1) as -> by (apply wrap32_small; lia).
  rewrite shiftl1.
  assert (wrap32 (2 * (Z.of_nat h + 1)) = 2 * Z.of_nat h + 2) as ->
    by (rewrite wrap32_small; lia).
  assert (wrap32 (2 * Z.of_nat h + 2 - 1) = Z.of_nat (2 * h + 1)) as ->
    by (rewrite wrap32_small; lia).
  assert (wrap32 (Z.of_nat (2 * h + 1) + 1) = Z.of_nat (2 * h + 2)) as ->
    by (rewrite wrap32_small; lia).
  destruct (Z.leb_spec (Z.of_nat (length (buff_ st))) (Z.of_nat (2 * h + 1))) as [Hl|Hl].
  { exists h. split; [done|]. left. split; [done|].
    intros c Hc. apply lookup_ge_None. unfold is_child in Hc. lia. }
  destruct (lookup_lt_is_Some_2 (buff_ st) (2 * h + 1)) as [l Hll]; [lia|].
  destruct (hole_slots _ _ _ HW _ _ Hll) as [_ (nl & Hnl & _)]; [lia|].
  destruct (Z.leb_spec (Z.of_nat (length (buff_ st))) (Z.of_nat (2 * h + 2))) as [Hr|Hr].
  { exists (2 * h + 1)%nat. split; [done|]. right. split; [by left|].
    exists l. split; [done|]. intros c q [->| ->] Hq.
    - assert (q = l) as -> by congruence. lia.
    - apply lookup_lt_Some in Hq. lia. }
  destruct (lookup_lt_is_Some_2 (buff_ st) (2 * h + 2)) as [r Hrr]; [lia|].
  destruct (hole_slots _ _ _ HW _ _ Hrr) as [_ (nr & Hnr & _)]; [lia|].
  rewrite (at_of_nat _ _ _ Hll), (at_of_nat _ _ _ Hrr). cbn [bind].
  rewrite (handler_lt_lookup _ _ _ _ _ Hnl Hnr). cbn [bind].
  destruct (Z.ltb_spec (nkey (nodes st) l) (nkey (nodes st) r)) as [Hk|Hk].
  - exists (2 * h + 1)%nat. split; [done|]. right. split; [by left|].
    exists l. split; [done|]. intros c q [->| ->] Hq.
    + assert (q = l) as -> by congruence. lia.
    + assert (q = r) as -> by congruence. lia.
  - exists (2 * h + 2)%nat. split; [done|]. right. split; [by right|].
    exists r. split; [done|]. intros c q [->| ->] Hq.
    + assert (q = l) as -> by congruence. lia.
    + assert (q = r) as -> by congruence. lia.
Qed.

(** ** Hoare-style rule for the loop of [percolate_down] *)

Section percolate_down_rule.
Variable tmp : ptr.
Variable P : state → nat → Prop.

Hypothesis P_move : ∀ st h c q n,
  hole_inv st tmp h → P st h → is_child h c →
  buff_ st !! c = Some q → nodes st !! q = Some n →
  (∀ c' q', is_child h c' → buff_ st !! c' = Some q' →
     nkey (nodes st) q ≤ nkey (nodes st) q') →
  nkey (nodes st) q < nkey (nodes st) tmp →
  P (move st h q n) c.

Lemma percolate_down_loop_rule fuel : ∀ st (h : nat) ci,
  hole_inv st tmp h → P st h → (length (buff_ st) ≤ fuel + h)%nat →
  MinHeap.find_min_child st (Z.of_nat h) = Ok ci →
  ∃ st' (h' : nat),
    MinHeap.percolate_down_loop fuel st tmp (Z.of_nat h + 1) ci
      = Ok (st', Z.of_nat h' + 1)
    ∧ hole_inv st' tmp h' ∧ P st' h'
    ∧ (h' = h ∧ st' = st ∨ (h < h')%nat)
    ∧ (∀ c q, is_child h' c → buff_ st' !! c = Some q →
         nkey (nodes st') tmp ≤ nkey (nodes st') q).
Proof.
  induction fuel as [|fuel IH]; intros st h ci HW HP Hf Hci.
  { pose proof (hole_lt _ _ _ HW). lia. }
  pose proof (hole_lt _ _ _ HW) as Hhlt.
  pose proof (hole_small _ _ _ HW) as Hsm. unfold small in Hsm.
  destruct (hole_tmp _ _ _ HW) as [nt Hnt].
  cbn [MinHeap.percolate_down_loop].
  assert (Hwh : wrap32 (Z.of_nat h + 1 - 1) = Z.of_nat h).
  { rewrite wrap32_small; lia. }
  rewrite Hwh.
  destruct (find_min_child_spec _ _ _ HW) as (c & Hc & Hcase).
  rewrite Hc in Hci. injection Hci as <-.
  destruct Hcase as [[-> Hnone]|[Hch (q & Hq & Hmin)]].
  - rewrite Z.eqb_refl. cbn [negb]. exists st, h. split_and!; try done; [by left|].
    intros c q Hch Hq. by rewrite (Hnone _ Hch) in Hq.
  - assert (Hne : c ≠ h) by (unfold is_child in Hch; lia).
    destruct (Z.eqb_spec (Z.of_nat c) (Z.of_nat h)) as [?|_]; [lia|]. cbn [negb].
    destruct (hole_slots _ _ _ HW _ _ Hq Hne) as [Hqt (n & Hn & Hidx)].
    rewrite (at_of_nat _ _ _ Hq). cbn [bind].
    rewrite (handler_lt_lookup _ _ _ _ _ Hn Hnt). cbn [bind].
    destruct (Z.ltb_spec (nkey (nodes st) q) (nkey (nodes st) tmp)) as [Hk|Hk].
    + unfold MinHeap.at_put.
      destruct (Z.leb_spec (Z.of_nat (length (buff_ st))) (Z.of_nat h)); [lia|].
      cbn [bind]. unfold MinHeap.subscript. cbn [buff_]. rewrite Nat2Z.id.
      rewrite list_lookup_insert_eq by done. cbn [bind].
      unfold set_index, deref. cbn [nodes]. rewrite Hn. cbn [bind].
      change (assign _ q _) with (move st h q n).
      assert (HW' : hole_inv (move st h q n) tmp c) by (by apply move_hole_inv).
      destruct (find_min_child_spec _ _ _ HW') as (c1 & Hc1 & _).
      rewrite Hc1. cbn [bind].
      assert (wrap32 (Z.of_nat c + 1) = Z.of_nat c + 1) as ->.
      { apply lookup_lt_Some in Hq. rewrite wrap32_small; lia. }
      destruct (IH (move st h q n) c (Z.of_nat c1))
        as (st' & h' & Hrun & HW'' & HP' & Hle & Hex); try done.
      { by eapply P_move. }
      { cbn. rewrite length_insert. unfold is_child in Hch. lia. }
      exists st', h'. split_and!; try done.
      right. unfold is_child in Hch. lia.
    + exists st, h. split_and!; try done; [by left|].
      intros c' q' Hc' Hq'. specialize (Hmin _ _ Hc' Hq'). lia.
Qed.
End percolate_down_rule.

(** ** Facts about the invariants *)

Lemma nodes_same_refl ns : nodes_same ns ns.
Proof. split; [done|]. intros p n Hn. exists n. split; [done|]. by destruct n. Qed.

Lemma nodes_same_trans ns1 ns2 ns3 :
  nodes_same ns1 ns2 → nodes_same ns2 ns3 → nodes_same ns1 ns3.
Proof.
  intros [Hl1 H1] [Hl2 H2]. split; [congruence|].
  intros p n Hn. destruct (H1 _ _ Hn) as (n2 & Hn2 & Hs2).
  destruct (H2 _ _ Hn2) as (n3 & Hn3 & Hs3). exists n3. split; [done|].
  unfold same_data in *. rewrite Hs3, Hs2. done.
Qed.

Lemma nodes_same_insert ns q n i :
  ns !! q = Some n → nodes_same ns (<[q := with_index n i]> ns).
Proof.
  intros Hq. split; [by rewrite length_insert|].
  intros p np Hp. destruct (decide (q = p)) as [->|Hne].
  - assert (np = n) as -> by congruence. exists (with_index n i).
    rewrite list_lookup_insert_eq by (by eapply lookup_lt_Some). done.
  - exists np. rewrite list_lookup_insert_ne by done. split; [done|]. by destruct np.
Qed.

Lemma nodes_same_nkey ns ns' p : nodes_same ns ns' → nkey ns' p = nkey ns p.
Proof.
  intros [Hlen H]. unfold nkey. destruct (ns !! p) as [n|] eqn:Hn.
  - destruct (H _ _ Hn) as (n' & -> & ->). done.
  - apply lookup_ge_None in Hn. rewrite Hlen in Hn. apply lookup_ge_None in Hn.
    by rewrite Hn.
Qed.

Lemma ord_at_ext ns ns' l j c :
  (∀ p, nkey ns' p = nkey ns p) → ord_at ns l j c → ord_at ns' l j c.
Proof. intros He H p q Hp Hq. rewrite !He. by apply H. Qed.

Lemma heap_ord_ext ns ns' l :
  (∀ p, nkey ns' p = nkey ns p) → heap_ord ns l → heap_ord ns' l.
Proof. intros He H j c Hc. eapply ord_at_ext; [done|]. by apply H. Qed.

Lemma slot_hole_inv st tmp pos :
  slot_inv st → small st → buff_ st !! pos = Some tmp → hole_inv st tmp pos.
Proof.
  intros Hs Hsm Hpos. destruct (Hs _ _ Hpos) as (nt & Hnt & Hit).
  split; [by eapply lookup_lt_Some|done|by exists nt|].
  intros j p Hj Hne. destruct (Hs _ _ Hj) as (n & Hn & Hi).
  split; [|by exists n]. intros ->. assert (n = nt) as -> by congruence. lia.
Qed.

Lemma vbuf_lookup st tmp h j :
  (h < length (buff_ st))%nat →
  vbuf st tmp h !! j = if decide (j = h) then Some tmp else buff_ st !! j.
Proof.
  intros Hlt. unfold vbuf. case_decide as Hj.
  - subst. by rewrite list_lookup_insert_eq.
  - by rewrite list_lookup_insert_ne.
Qed.

Lemma vbuf_move_lookup st tmp h src q n j :
  (h < length (buff_ st))%nat → buff_ st !! src = Some q → src ≠ h →
  vbuf (move st h q n) tmp src !! j =
    if decide (j = src) then Some tmp
    else if decide (j = h) then Some q else buff_ st !! j.
Proof.
  intros Hlt Hsrc Hne. unfold vbuf, move. cbn [buff_].
  apply lookup_lt_Some in Hsrc.
  repeat case_decide; subst.
  - rewrite list_lookup_insert_eq; [done|]. by rewrite length_insert.
  - rewrite list_lookup_insert_ne by done. by rewrite list_lookup_insert_eq.
  - by rewrite !list_lookup_insert_ne.
Qed.

Lemma vbuf_move_perm st tmp h src q n :
  (h < length (buff_ st))%nat → buff_ st !! src = Some q → src ≠ h →
  vbuf (move st h q n) tmp src ≡ₚ vbuf st tmp h.
Proof.
  intros Hlt Hsrc Hne. apply Permutation_inj. split.
  { unfold vbuf, move. cbn. by rewrite !length_insert. }
  exists (λ i, if decide (i = h) then src else if decide (i = src) then h else i).
  split.
  - intros i j. repeat case_decide; congruence.
  - intros i. rewrite (vbuf_move_lookup _ _ _ _ _ _ _ Hlt Hsrc Hne).
    rewrite (vbuf_lookup _ _ _ _ Hlt).
    repeat case_decide; congruence.
Qed.

Lemma perm_inv_move st0 st tmp h src q n :
  hole_inv st tmp h → perm_inv st0 tmp st h →
  buff_ st !! src = Some q → src ≠ h → nodes st !! q = Some n →
  perm_inv st0 tmp (move st h q n) src.
Proof.
  intros HW [Hp Hn] Hsrc Hne Hq. split.
  - rewrite <- Hp. apply vbuf_move_perm; [by eapply hole_lt|done..].
  - eapply nodes_same_trans; [done|]. by apply nodes_same_insert.
Qed.

(** ** The heap order across one loop step *)

Lemma up_ord_move st tmp h par q n :
  hole_inv st tmp h → up_ord st tmp h → is_child par h →
  buff_ st !! par = Some q → nodes st !! q = Some n →
  nkey (nodes st) tmp < nkey (nodes st) q →
  up_ord (move st h q n) tmp par.
Proof.
  intros HW [U1 U2] Hc Hq Hn Hk.
  pose proof (hole_lt _ _ _ HW) as Hlt.
  assert (Hne : par ≠ h) by (unfold is_child in Hc; lia).
  assert (Hvo : ∀ j, j ≠ h → vbuf st tmp h !! j = buff_ st !! j).
  { intros j Hj. rewrite vbuf_lookup by done. by rewrite decide_False. }
  assert (Hvq : vbuf st tmp h !! par = Some q) by (by rewrite Hvo).
  split.
  - intros j c Hjc Hcp p' q' Hp' Hq'. rewrite !nkey_move by done.
    rewrite (vbuf_move_lookup _ _ _ _ _ _ _ Hlt Hq Hne) in Hp'.
    rewrite (vbuf_move_lookup _ _ _ _ _ _ _ Hlt Hq Hne) in Hq'.
    rewrite decide_False in Hq' by done.
    destruct (decide (c = h)) as [->|Hch].
    + assert (j = par) as -> by (unfold is_child in *; lia).
      rewrite decide_True in Hp' by done. simplify_eq. lia.
    + destruct (decide (j = par)) as [->|Hjp].
      * injection Hp' as <-.
        pose proof (U1 par c Hjc Hch q q' Hvq) as HH.
        rewrite Hvo in HH by done. specialize (HH Hq'). lia.
      * destruct (decide (j = h)) as [->|Hjh].
        -- injection Hp' as <-.
           pose proof (U2 par c Hc Hjc q q' Hvq) as HH.
           rewrite Hvo in HH by done. exact (HH Hq').
        -- apply (U1 j c Hjc Hch); by rewrite Hvo.
  - intros g c Hg Hpc p' q' Hp' Hq'. rewrite !nkey_move by done.
    rewrite (vbuf_move_lookup _ _ _ _ _ _ _ Hlt Hq Hne) in Hp'.
    rewrite (vbuf_move_lookup _ _ _ _ _ _ _ Hlt Hq Hne) in Hq'.
    assert (g ≠ par ∧ g ≠ h ∧ c ≠ par) as (? & ? & ?) by (unfold is_child in *; lia).
    rewrite !decide_False in Hp' by done.
    rewrite (decide_False (P := c = par)) in Hq' by done.
    assert (Hgq : nkey (nodes st) p' ≤ nkey (nodes st) q).
    { apply (U1 g par Hg Hne); [by rewrite Hvo|done]. }
    destruct (decide (c = h)) as [->|Hch].
    + by simplify_eq.
    + pose proof (U1 par c Hpc Hch q q' Hvq) as HH.
      rewrite Hvo in HH by done. specialize (HH Hq'). lia.
Qed.

Lemma down_ord_move st tmp h c q n :
  hole_inv st tmp h → down_ord st tmp h → is_child h c →
  buff_ st !! c = Some q → nodes st !! q = Some n →
  (∀ c' q', is_child h c' → buff_ st !! c' = Some q' →
     nkey (nodes st) q ≤ nkey (nodes st) q') →
  nkey (nodes st) q < nkey (nodes st) tmp →
  down_ord (move st h q n) tmp c.
Proof.
  intros HW [D1 D2] Hc Hq Hn Hmin Hk.
  pose proof (hole_lt _ _ _ HW) as Hlt.
  assert (Hne : c ≠ h) by (unfold is_child in Hc; lia).
  assert (Hvo : ∀ j, j ≠ h → vbuf st tmp h !! j = buff_ st !! j).
  { intros j Hj. rewrite vbuf_lookup by done. by rewrite decide_False. }
  assert (Hvq : vbuf st tmp h !! c = Some q) by (by rewrite Hvo).
  split.
  - intros j c' Hjc Hjn p' q' Hp' Hq'. rewrite !nkey_move by done.
    rewrite (vbuf_move_lookup _ _ _ _ _ _ _ Hlt Hq Hne) in Hp'.
    rewrite (vbuf_move_lookup _ _ _ _ _ _ _ Hlt Hq Hne) in Hq'.
    rewrite decide_False in Hp' by done.
    destruct (decide (j = h)) as [->|Hjh].
    + injection Hp' as <-. assert (c' ≠ h) by (unfold is_child in *; lia).
      rewrite (decide_False (P := c' = h)) in Hq' by done.
      destruct (decide (c' = c)) as [->|Hcc].
      * injection Hq' as <-. lia.
      * by eapply Hmin.
    + assert (c' ≠ c) by (unfold is_child in *; lia).
      rewrite decide_False in Hq' by done.
      destruct (decide (c' = h)) as [->|Hch].
      * injection Hq' as <-. apply (D2 j c Hjc Hc); [by rewrite Hvo|done].
      * apply (D1 j c' Hjc Hjh); by rewrite Hvo.
  - intros g c' Hg Hcc p' q' Hp' Hq'. rewrite !nkey_move by done.
    rewrite (vbuf_move_lookup _ _ _ _ _ _ _ Hlt Hq Hne) in Hp'.
    rewrite (vbuf_move_lookup _ _ _ _ _ _ _ Hlt Hq Hne) in Hq'.
    assert (g = h) as -> by (unfold is_child in *; lia).
    assert (c' ≠ c ∧ c' ≠ h) as [? ?] by (unfold is_child in *; lia).
    rewrite decide_False, decide_True in Hp' by done.
    rewrite !decide_False in Hq' by done.
    injection Hp' as <-.
    apply (D1 c c' Hcc Hne); [done|by rewrite Hvo].
Qed.

Lemma up_ord_exit st tmp h :
  hole_inv st tmp h → up_ord st tmp h →
  (∀ par q, is_child par h → buff_ st !! par = Some q →
     nkey (nodes st) q ≤ nkey (nodes st) tmp) →
  heap_ord (nodes st) (vbuf st tmp h).
Proof.
  intros HW [U1 _] Hex j c Hjc. destruct (decide (c = h)) as [->|Hch]; [|by apply U1].
  pose proof (hole_lt _ _ _ HW) as Hlt.
  intros p q. rewrite !vbuf_lookup by done.
  assert (j ≠ h) by (unfold is_child in *; lia).
  rewrite decide_False, decide_True by done. intros Hp [= <-]. by eapply Hex.
Qed.

Lemma down_ord_exit st tmp h :
  hole_inv st tmp h → down_ord st tmp h →
  (∀ c q, is_child h c → buff_ st !! c = Some q →
     nkey (nodes st) tmp ≤ nkey (nodes st) q) →
  heap_ord (nodes st) (vbuf st tmp h).
Proof.
  intros HW [D1 _] Hex j c Hjc. destruct (decide (j = h)) as [->|Hjh]; [|by apply D1].
  pose proof (hole_lt _ _ _ HW) as Hlt.
  intros p q. rewrite !vbuf_lookup by done.
  assert (c ≠ h) by (unfold is_child in *; lia).
  rewrite decide_True, decide_False by done. intros [= <-] Hq. by eapply Hex.
Qed.

(** ** The code after the loops *)

Lemma finish_run st1 tmp (h pos : nat) nt :
  hole_inv st1 tmp h → nodes st1 !! tmp = Some nt →
  (if wrap32 (Z.of_nat h + 1 - 1) =? Z.of_nat pos then Ok st1
   else do st2 <- set_index st1 tmp (wrap32 (Z.of_nat h + 1 - 1));
        MinHeap.at_put st2 (wrap32 (Z.of_nat h + 1 - 1)) tmp)
  = Ok (finish st1 tmp h pos nt).
Proof.
  intros HW Hnt. pose proof (hole_lt _ _ _ HW) as Hlt.
  pose proof (hole_small _ _ _ HW) as Hsm. unfold small in Hsm.
  assert (wrap32 (Z.of_nat h + 1 - 1) = Z.of_nat h) as ->
    by (rewrite wrap32_small; lia).
  unfold finish. destruct (Z.eqb_spec (Z.of_nat h) (Z.of_nat pos)) as [He|He].
  - rewrite decide_True by lia. done.
  - rewrite decide_False by lia.
    unfold set_index, deref. rewrite Hnt. cbn [bind].
    unfold MinHeap.at_put, assign. cbn [buff_ nodes].
    destruct (Z.leb_spec (Z.of_nat (length (buff_ st1))) (Z.of_nat h)); [lia|].
    by rewrite Nat2Z.id.
Qed.

Lemma finish_props st st1 tmp h pos nt :
  slot_inv st → buff_ st !! pos = Some tmp →
  hole_inv st1 tmp h → nodes st1 !! tmp = Some nt →
  (h = pos → st1 = st) →
  slot_inv (finish st1 tmp h pos nt)
  ∧ buff_ (finish st1 tmp h pos nt) = vbuf st1 tmp h
  ∧ nodes_same (nodes st1) (nodes (finish st1 tmp h pos nt)).
Proof.
  intros Hs Hpos HW Hnt Heq. unfold finish, vbuf.
  destruct (decide (h = pos)) as [->|Hne].
  - rewrite (Heq eq_refl). split_and!; [done| |apply nodes_same_refl].
    symmetry. by apply list_insert_id.
  - pose proof (hole_lt _ _ _ HW) as Hlt.
    split_and!; [|done|by apply nodes_same_insert].
    intros i p. cbn. destruct (decide (i = h)) as [->|Hih].
    + rewrite list_lookup_insert_eq by done. intros [= <-].
      exists (with_index nt (Z.of_nat h)).
      rewrite list_lookup_insert_eq by (by eapply lookup_lt_Some). done.
    + rewrite list_lookup_insert_ne by done. intros Hi.
      destruct (hole_slots _ _ _ HW _ _ Hi Hih) as [Hpt (n & Hn & Hidx)].
      exists n. by rewrite list_lookup_insert_ne.
Qed.

(** ** [percolate_up] and [percolate_down] *)

Lemma percolate_up_correct st (pos : nat) tmp :
  slot_inv st → small st → buff_ st !! pos = Some tmp →
  ∃ st', MinHeap.percolate_up st (Z.of_nat pos) = Ok st'
    ∧ slot_inv st'
    ∧ buff_ st' ≡ₚ buff_ st
    ∧ nodes_same (nodes st) (nodes st')
    ∧ (∃ h : nat, buff_ st' !! h = Some tmp ∧ (h ≤ pos)%nat ∧ (h = pos → st' = st))
    ∧ (∀ j, (pos < j)%nat → buff_ st' !! j = buff_ st !! j)
    ∧ (up_ord st tmp pos → heap_ord (nodes st') (buff_ st')).
Proof.
  intros Hs Hsm Hpos.
  pose proof (slot_hole_inv _ _ _ Hs Hsm Hpos) as HW.
  pose proof (hole_lt _ _ _ HW) as Hlt.
  unfold MinHeap.percolate_up. cbv zeta.
  rewrite (at_of_nat _ _ _ Hpos). cbn [bind].
  assert (wrap32 (Z.of_nat pos + 1) = Z.of_nat pos + 1) as ->.
  { unfold small in Hsm. rewrite wrap32_small; lia. }
  destruct (percolate_up_loop_rule tmp
      (λ s h, perm_inv st tmp s h ∧ (up_ord st tmp pos → up_ord s tmp h)
              ∧ (h ≤ pos)%nat ∧ ∀ j, (pos < j)%nat → buff_ s !! j = buff_ st !! j))
    with (fuel := 33%nat) (st := st) (h := pos)
    as (st1 & h & Hrun & HW1 & ([Hperm Hsame] & Hord & Hhp & Hrest) & Hdir & Hex).
  { intros s h par q n HWs (Hp & Ho & Hh & Hr) Hc Hq Hn Hk. split_and!.
    - apply perm_inv_move; try done. unfold is_child in Hc. lia.
    - intros H0. by eapply up_ord_move; eauto.
    - unfold is_child in Hc. lia.
    - intros j Hj. cbn. rewrite list_lookup_insert_ne by lia. by apply Hr. }
  { done. }
  { split_and!; [|done..]. split; [|apply nodes_same_refl].
    unfold vbuf. by rewrite list_insert_id. }
  { unfold small in Hsm. change (2 ^ Z.of_nat 33) with 8589934592. lia. }
  rewrite Hrun. cbn [bind].
  destruct (hole_tmp _ _ _ HW1) as [nt Hnt].
  rewrite (finish_run _ _ _ _ _ HW1 Hnt).
  destruct (finish_props st st1 tmp h pos nt) as (Hs' & Hb' & Hn'); try done.
  { intros ->. destruct Hdir as [[_ ->]|?]; [done|lia]. }
  exists (finish st1 tmp h pos nt). split_and!; try done.
  - by rewrite Hb'.
  - by eapply nodes_same_trans.
  - exists h. rewrite Hb', vbuf_lookup, decide_True by (done || by eapply hole_lt).
    split_and!; [done|lia|]. intros ->. destruct Hdir as [[_ ->]|?]; [|lia].
    unfold finish. by rewrite decide_True.
  - intros j Hj. rewrite Hb'. unfold vbuf.
    rewrite list_lookup_insert_ne by lia. by apply Hrest.
  - intros H0. rewrite Hb'.
    apply (heap_ord_ext (nodes st1)); [intros p; by apply nodes_same_nkey|].
    by apply up_ord_exit; auto.
Qed.

Lemma percolate_down_correct st (pos : nat) tmp :
  slot_inv st → small st → buff_ st !! pos = Some tmp →
  ∃ st', MinHeap.percolate_down st (Z.of_nat pos) = Ok st'
    ∧ slot_inv st'
    ∧ buff_ st' ≡ₚ buff_ st
    ∧ nodes_same (nodes st) (nodes st')
    ∧ (∃ h : nat, buff_ st' !! h = Some tmp ∧ (pos ≤ h)%nat ∧ (h = pos → st' = st))
    ∧ (∀ j, (j < pos)%nat → buff_ st' !! j = buff_ st !! j)
    ∧ (down_ord st tmp pos → heap_ord (nodes st') (buff_ st')).
Proof.
  intros Hs Hsm Hpos.
  pose proof (slot_hole_inv _ _ _ Hs Hsm Hpos) as HW.
  pose proof (hole_lt _ _ _ HW) as Hlt.
  unfold MinHeap.percolate_down. cbv zeta.
  rewrite (at_of_nat _ _ _ Hpos). cbn [bind].
  assert (wrap32 (Z.of_nat pos + 1) = Z.of_nat pos + 1) as ->.
  { unfold small in Hsm. rewrite wrap32_small; lia. }
  destruct (find_min_child_spec _ _ _ HW) as (ci & Hci & _).
  rewrite Hci. cbn [bind].
  destruct (percolate_down_loop_rule tmp
      (λ s h, perm_inv st tmp s h ∧ (down_ord st tmp pos → down_ord s tmp h)
              ∧ (pos ≤ h)%nat ∧ ∀ j, (j < pos)%nat → buff_ s !! j = buff_ st !! j))
    with (fuel := S (length (buff_ st))) (st := st) (h := pos) (ci := Z.of_nat ci)
    as (st1 & h & Hrun & HW1 & ([Hperm Hsame] & Hord & Hhp & Hrest) & Hdir & Hex).
  { intros s h c q n HWs (Hp & Ho & Hh & Hr) Hc Hq Hn Hmin Hk. split_and!.
    - apply perm_inv_move; try done. unfold is_child in Hc. lia.
    - intros H0. by eapply down_ord_move; eauto.
    - unfold is_child in Hc. lia.
    - intros j Hj. cbn. rewrite list_lookup_insert_ne by lia. by apply Hr. }
  { done. }
  { split_and!; [|done..]. split; [|apply nodes_same_refl].
    unfold vbuf. by rewrite list_insert_id. }
  { lia. }
  { done. }
  rewrite Hrun. cbn [bind].
  destruct (hole_tmp _ _ _ HW1) as [nt Hnt].
  rewrite (finish_run _ _ _ _ _ HW1 Hnt).
  destruct (finish_props st st1 tmp h pos nt) as (Hs' & Hb' & Hn'); try done.
  { intros ->. destruct Hdir as [[_ ->]|?]; [done|lia]. }
  exists (finish st1 tmp h pos nt). split_and!; try done.
  - by rewrite Hb'.
  - by eapply nodes_same_trans.
  - exists h. rewrite Hb', vbuf_lookup, decide_True by (done || by eapply hole_lt).
    split_and!; [done|lia|]. intros ->. destruct Hdir as [[_ ->]|?]; [|lia].
    unfold finish. by rewrite decide_True.
  - intros j Hj. rewrite Hb'. unfold vbuf.
    rewrite list_lookup_insert_ne by lia. by apply Hrest.
  - intros H0. rewrite Hb'.
    apply (heap_ord_ext (nodes st1)); [intros p; by apply nodes_same_nkey|].
    by apply down_ord_exit; auto.
Qed.

(** ** Re-keying a node *)

Lemma slot_inv_inj st i j p :
  slot_inv st → buff_ st !! i = Some p → buff_ st !! j = Some p → i = j.
Proof.
  intros Hs Hi Hj. destruct (Hs _ _ Hi) as (n & Hn & Hni).
  destruct (Hs _ _ Hj) as (n' & Hn' & Hnj). assert (n' = n) as -> by congruence. lia.
Qed.

Lemma nkey_assign_next_tp st h n tp p :
  nodes st !! h = Some n →
  nkey (nodes (assign st h (with_next_tp n tp))) p =
    if decide (p = h) then tp else nkey (nodes st) p.
Proof.
  intros Hn. unfold nkey. cbn. case_decide as Hp.
  - subst. by rewrite list_lookup_insert_eq by (by eapply lookup_lt_Some).
  - by rewrite list_lookup_insert_ne.
Qed.

Lemma assign_next_tp_slot_inv st h n tp :
  slot_inv st → nodes st !! h = Some n → slot_inv (assign st h (with_next_tp n tp)).
Proof.
  intros Hs Hn i p Hi. cbn in *. destruct (Hs _ _ Hi) as (np & Hnp & Hidx).
  destruct (decide (p = h)) as [->|Hne].
  - assert (np = n) as -> by congruence. exists (with_next_tp n tp).
    by rewrite list_lookup_insert_eq by (by eapply lookup_lt_Some).
  - exists np. by rewrite list_lookup_insert_ne.
Qed.

Lemma assign_same_next_tp st h n :
  nodes st !! h = Some n → assign st h (with_next_tp n (next_tp n)) = st.
Proof.
  intros Hn. unfold assign. destruct st as [ns b]. cbn in *. f_equal.
  apply list_insert_id. rewrite Hn. by destruct n.
Qed.

Lemma rekey_down_ord st h n (i : nat) tp :
  slot_inv st → buff_ st !! i = Some h → nodes st !! h = Some n →
  heap_ord (nodes st) (buff_ st) → (i = 0%nat ∨ next_tp n ≤ tp) →
  down_ord (assign st h (with_next_tp n tp)) h i.
Proof.
  intros Hs Hi Hn Hord Htp.
  assert (Hv : vbuf (assign st h (with_next_tp n tp)) h i = buff_ st).
  { unfold vbuf. cbn. by apply list_insert_id. }
  unfold down_ord. rewrite Hv.
  assert (Hkh : nkey (nodes st) h = next_tp n) by (by apply nkey_lookup).
  split.
  - intros j c Hjc Hji p q Hp Hq. rewrite !nkey_assign_next_tp by done.
    assert (p ≠ h) by (intros ->; by eapply Hji, slot_inv_inj).
    rewrite (decide_False (P := p = h)) by done.
    pose proof (Hord j c Hjc p q Hp Hq) as Hpq. case_decide; [subst|done].
    destruct Htp as [->|?]; [|lia].
    assert (c = 0%nat) by (by eapply slot_inv_inj). unfold is_child in Hjc. lia.
  - intros g c Hg Hc p q Hp Hq. rewrite !nkey_assign_next_tp by done.
    assert (p ≠ h).
    { intros ->. assert (g = i) by (by eapply slot_inv_inj).
      unfold is_child in Hg. lia. }
    assert (q ≠ h).
    { intros ->. assert (c = i) by (by eapply slot_inv_inj).
      unfold is_child in Hc. lia. }
    rewrite !decide_False by done.
    pose proof (Hord g i Hg p h Hp Hi). pose proof (Hord i c Hc h q Hi Hq). lia.
Qed.

Lemma rekey_up_ord st h n (i : nat) tp :
  slot_inv st → buff_ st !! i = Some h → nodes st !! h = Some n →
  heap_ord (nodes st) (buff_ st) → tp ≤ next_tp n →
  up_ord (assign st h (with_next_tp n tp)) h i.
Proof.
  intros Hs Hi Hn Hord Htp.
  assert (Hv : vbuf (assign st h (with_next_tp n tp)) h i = buff_ st).
  { unfold vbuf. cbn. by apply list_insert_id. }
  unfold up_ord. rewrite Hv.
  assert (Hkh : nkey (nodes st) h = next_tp n) by (by apply nkey_lookup).
  split.
  - intros j c Hjc Hci p q Hp Hq. rewrite !nkey_assign_next_tp by done.
    assert (q ≠ h) by (intros ->; by eapply Hci, slot_inv_inj).
    rewrite (decide_False (P := q = h)) by done.
    pose proof (Hord j c Hjc p q Hp Hq) as Hpq. case_decide; [subst; lia|done].
  - intros g c Hg Hc p q Hp Hq. rewrite !nkey_assign_next_tp by done.
    assert (p ≠ h).
    { intros ->. assert (g = i) by (by eapply slot_inv_inj).
      unfold is_child in Hg. lia. }
    assert (q ≠ h).
    { intros ->. assert (c = i) by (by eapply slot_inv_inj).
      unfold is_child in Hc. lia. }
    rewrite !decide_False by done.
    pose proof (Hord g i Hg p h Hp Hi). pose proof (Hord i c Hc h q Hi Hq). lia.
Qed.

(** ** [update_place], [update_top], [push], [push_and_sort] *)

Lemma update_place_correct st h n (i : nat) tp :
  slot_inv st → small st → buff_ st !! i = Some h → nodes st !! h = Some n →
  ∃ st', MinHeap.update_place st h tp = Ok st'
    ∧ slot_inv st'
    ∧ buff_ st' ≡ₚ buff_ st
    ∧ nodes_same (nodes (assign st h (with_next_tp n tp))) (nodes st')
    ∧ (∃ i' : nat, buff_ st' !! i' = Some h
        ∧ (tp > next_tp n →
             MinHeap.percolate_down (assign st h (with_next_tp n tp)) (Z.of_nat i) = Ok st'
             ∧ (i ≤ i')%nat ∧ ∀ j, (j < i)%nat → buff_ st' !! j = buff_ st !! j)
        ∧ (tp < next_tp n →
             MinHeap.percolate_up (assign st h (with_next_tp n tp)) (Z.of_nat i) = Ok st'
             ∧ (i' ≤ i)%nat ∧ ∀ j, (i < j)%nat → buff_ st' !! j = buff_ st !! j)
        ∧ (tp = next_tp n → st' = st))
    ∧ (heap_ord (nodes st) (buff_ st) → heap_ord (nodes st') (buff_ st')).
Proof.
  intros Hs Hsm Hi Hn.
  destruct (Hs _ _ Hi) as (n0 & Hn0 & Hidx). assert (n0 = n) as -> by congruence.
  set (st1 := assign st h (with_next_tp n tp)).
  assert (Hs1 : slot_inv st1) by (by apply assign_next_tp_slot_inv).
  assert (Hn1 : nodes st1 !! h = Some (with_next_tp n tp)).
  { cbn. by rewrite list_lookup_insert_eq by (by eapply lookup_lt_Some). }
  unfold MinHeap.update_place, set_next_tp.
  rewrite (deref_lookup _ _ _ Hn). cbn [bind]. fold st1.
  rewrite (deref_lookup _ _ _ Hn1). cbn [bind]. cbn [index with_next_tp].
  rewrite Hidx.
  destruct (Z.gtb_spec tp (next_tp n)) as [Hgt|Hle].
  - destruct (percolate_down_correct st1 i h Hs1 Hsm Hi)
      as (st' & Hrun & Hs' & Hp' & Hn' & (i' & Hi' & Hle & _) & Hrest & Hord).
    exists st'. split_and!; try done.
    + exists i'. split_and!; [done| |intros; lia|intros; lia].
      intros _. by split_and!.
    + intros H0. apply Hord. apply rekey_down_ord; try done; lia.
  - destruct (Z.ltb_spec tp (next_tp n)) as [Hlt|Hge].
    + destruct (percolate_up_correct st1 i h Hs1 Hsm Hi)
        as (st' & Hrun & Hs' & Hp' & Hn' & (i' & Hi' & Hle' & _) & Hrest & Hord).
      exists st'. split_and!; try done.
      * exists i'. split_and!; [done|intros; lia| |intros; lia].
        intros _. by split_and!.
      * intros H0. apply Hord. apply rekey_up_ord; try done; lia.
    + assert (tp = next_tp n) as -> by lia.
      assert (st1 = st) as Hst by (by apply assign_same_next_tp).
      exists st1. rewrite Hst. split_and!; try done.
      * apply nodes_same_refl.
      * exists i. split_and!; [done|intros; lia|intros; lia|done].
Qed.

Lemma update_top_correct st sp :
  slot_inv st → small st → buff_ st !! 0%nat = Some sp → ∀ tp,
  ∃ st' n, MinHeap.update_top st tp = Ok st'
    ∧ nodes st !! sp = Some n
    ∧ slot_inv st'
    ∧ buff_ st' ≡ₚ buff_ st
    ∧ nodes_same (nodes (assign st sp (with_next_tp n tp))) (nodes st')
    ∧ (heap_ord (nodes st) (buff_ st) → heap_ord (nodes st') (buff_ st')).
Proof.
  intros Hs Hsm H0 tp. destruct (Hs _ _ H0) as (n & Hn & Hidx).
  set (st1 := assign st sp (with_next_tp n tp)).
  assert (Hs1 : slot_inv st1) by (by apply assign_next_tp_slot_inv).
  unfold MinHeap.update_top, set_next_tp.
  change 0 with (Z.of_nat 0).
  rewrite (at_of_nat _ 0 _ H0). cbn [bind].
  rewrite (deref_lookup _ _ _ Hn). cbn [bind]. fold st1.
  destruct (percolate_down_correct st1 0 sp Hs1 Hsm H0)
    as (st' & Hrun & Hs' & Hp' & Hn' & _ & _ & Hord).
  exists st', n. split_and!; try done.
  intros Ho. apply Hord. apply rekey_down_ord; auto.
Qed.

Lemma push_correct st h n :
  slot_inv st → Z.of_nat (length (buff_ st)) + 1 < 2 ^ 31 →
  nodes st !! h = Some n → h ∉ buff_ st →
  let st' := {| nodes := <[h := with_index n (Z.of_nat (length (buff_ st)))]> (nodes st);
                buff_ := buff_ st ++ [h] |} in
  MinHeap.push st h = Ok st' ∧ slot_inv st' ∧ small st'.
Proof.
  intros Hs Hsm Hn Hh st'. split_and!.
  - unfold MinHeap.push, set_index, MinHeap.size.
    rewrite (deref_lookup _ _ _ Hn). cbn [bind].
    rewrite wrap32_small by lia. done.
  - intros i p. unfold st'. cbn. intros Hi.
    apply lookup_app_Some in Hi as [Hi|[Hge Hi]].
    + destruct (Hs _ _ Hi) as (np & Hnp & Hidx). exists np.
      rewrite list_lookup_insert_ne; [done|].
      intros ->. apply Hh. by eapply list_elem_of_lookup_2.
    + apply list_lookup_singleton_Some in Hi as [Hi <-].
      exists (with_index n (Z.of_nat (length (buff_ st)))).
      rewrite list_lookup_insert_eq by (by eapply lookup_lt_Some).
      split; [done|]. cbn. lia.
  - unfold small, st'. cbn. rewrite length_app. cbn. lia.
Qed.

Lemma push_and_sort_correct st h n :
  slot_inv st → Z.of_nat (length (buff_ st)) + 1 < 2 ^ 31 →
  nodes st !! h = Some n → h ∉ buff_ st →
  ∃ st', MinHeap.push_and_sort st h = Ok st'
    ∧ slot_inv st' ∧ small st'
    ∧ buff_ st' ≡ₚ h :: buff_ st
    ∧ nodes_same (nodes st) (nodes st')
    ∧ (heap_ord (nodes st) (buff_ st) → heap_ord (nodes st') (buff_ st')).
Proof.
  intros Hs Hsm Hn Hh.
  destruct (push_correct st h n Hs Hsm Hn Hh) as (Hpush & Hs1 & Hsm1).
  set (len := length (buff_ st)) in *.
  set (st1 := {| nodes := <[h := with_index n (Z.of_nat len)]> (nodes st);
                 buff_ := buff_ st ++ [h] |}) in *.
  assert (Hn1 : nodes st1 !! h = Some (with_index n (Z.of_nat len))).
  { cbn. by rewrite list_lookup_insert_eq by (by eapply lookup_lt_Some). }
  assert (Hlast : buff_ st1 !! len = Some h).
  { cbn. rewrite lookup_app_r by done. by rewrite Nat.sub_diag. }
  unfold MinHeap.push_and_sort. rewrite Hpush. cbn [bind].
  rewrite (deref_lookup _ _ _ Hn1). cbn [bind index with_index].
  destruct (percolate_up_correct st1 len h Hs1 Hsm1 Hlast)
    as (st' & Hrun & Hs' & Hp' & Hn' & _ & _ & Hord).
  assert (Hsame1 : nodes_same (nodes st) (nodes st1)) by (by apply nodes_same_insert).
  exists st'. split_and!; try done.
  - unfold small. rewrite (Permutation_length Hp'). exact Hsm1.
  - rewrite Hp'. cbn. by rewrite <- Permutation_cons_append.
  - by eapply nodes_same_trans.
  - intros Ho. apply Hord. unfold up_ord, vbuf. rewrite (list_insert_id _ _ _ Hlast).
    split.
    + intros j c Hjc Hcl p q Hp Hq.
      rewrite !(nodes_same_nkey _ _ _ Hsame1).
      assert (c < len)%nat.
      { apply lookup_lt_Some in Hq. cbn in Hq. rewrite length_app in Hq. cbn in Hq.
        fold len in Hq. lia. }
      cbn in Hp, Hq. rewrite lookup_app_l in Hp by (unfold is_child in Hjc; lia).
      rewrite lookup_app_l in Hq by done. by eapply Ho.
    + intros g c Hg Hc p q Hp Hq. apply lookup_lt_Some in Hq.
      cbn in Hq. rewrite length_app in Hq. cbn in Hq. fold len in Hq.
      unfold is_child in Hc. lia.
Qed.

(** ** The slot invariant *)

Lemma slot_inv_init : slot_inv init_state.
Proof. intros i p Hi. cbn in Hi. by rewrite lookup_nil in Hi. Qed.

Lemma slot_inv_at st v :
  slot_inv st → v ∈ buff_ st →
  ∃ n, deref st v = Ok n ∧ MinHeap.at_ st (index n) = Ok v.
Proof.
  intros Hs Hv. apply list_elem_of_lookup_1 in Hv as [i Hi].
  destruct (Hs _ _ Hi) as (n & Hn & Hidx). exists n.
  split; [by apply deref_lookup|]. rewrite Hidx. by apply at_of_nat.
Qed.

(** C2. Slot invariant: every mutation of the heap (push, push_and_sort,
    update_top, update_place, and the percolations they run), applied the way
    the program applies it to a heap that satisfies the invariant, succeeds
    and leaves a heap in which every stored node [v] records its own slot:
    [buff_.at(v->index) == v]. *)
Theorem C2_slot_invariant st op :
  slot_inv st → small st → op_legal st op →
  ∃ st', run_op st op = Ok st' ∧ slot_inv st' ∧ small st' ∧
    ∀ v, v ∈ buff_ st' →
      ∃ n, deref st' v = Ok n ∧ MinHeap.at_ st' (index n) = Ok v.
Proof.
  intros Hs Hsm Hl.
  cut (∃ st', run_op st op = Ok st' ∧ slot_inv st' ∧ small st').
  { intros (st' & Hrun & Hs' & Hsm'). exists st'. split_and!; [done..|].
    intros v Hv. by apply slot_inv_at. }
  assert (Hperm : ∀ st', buff_ st' ≡ₚ buff_ st → small st').
  { intros st' Hp. unfold small. by rewrite (Permutation_length Hp). }
  destruct op as [h|h|tp|h tp|pos|pos]; cbn in Hl |- *.
  - destruct Hl as ([n Hn] & Hh & Hlen).
    destruct (push_correct st h n Hs Hlen Hn Hh) as (Hrun & Hs' & Hsm'). eauto.
  - destruct Hl as ([n Hn] & Hh & Hlen).
    destruct (push_and_sort_correct st h n Hs Hlen Hn Hh)
      as (st' & Hrun & Hs' & Hsm' & _).
    eauto.
  - apply empty_false_root in Hl as [sp H0].
    destruct (update_top_correct st sp Hs Hsm H0 tp)
      as (st' & n & Hrun & _ & Hs' & Hp & _).
    eauto.
  - apply list_elem_of_lookup_1 in Hl as [i Hi].
    destruct (Hs _ _ Hi) as (n & Hn & _).
    destruct (update_place_correct st h n i tp Hs Hsm Hi Hn)
      as (st' & Hrun & Hs' & Hp & _).
    eauto.
  - destruct (lookup_lt_is_Some_2 _ _ Hl) as [tmp Htmp].
    destruct (percolate_up_correct st pos tmp Hs Hsm Htmp)
      as (st' & Hrun & Hs' & Hp & _).
    eauto.
  - destruct (lookup_lt_is_Some_2 _ _ Hl) as [tmp Htmp].
    destruct (percolate_down_correct st pos tmp Hs Hsm Htmp)
      as (st' & Hrun & Hs' & Hp & _).
    eauto.
Qed.

(** ** The heap order *)

Lemma heap_ord_root ns l r :
  heap_ord ns l → l !! 0%nat = Some r →
  ∀ j q, l !! j = Some q → nkey ns r ≤ nkey ns q.
Proof.
  intros Ho Hr j. induction (lt_wf j) as [j _ IH]. intros q Hq.
  destruct (decide (j = 0%nat)) as [->|Hj].
  { assert (q = r) as -> by congruence. lia. }
  pose (par := Z.to_nat ((Z.of_nat j - 1) / 2)).
  assert (Hc : is_child par j) by (unfold is_child, par; lia).
  destruct (lookup_lt_is_Some_2 l par) as [p Hp].
  { apply lookup_lt_Some in Hq. unfold par. lia. }
  assert (nkey ns r ≤ nkey ns p) by (apply (IH par); [unfold par; lia|done]).
  pose proof (Ho par j Hc p q Hp Hq). lia.
Qed.

Lemma root_is_min_of_ord st :
  heap_ord (nodes st) (buff_ st) → root_is_min st.
Proof.
  intros Ho. unfold root_is_min, MinHeap.top, MinHeap.at_.
  change (Z.to_nat 0) with 0%nat.
  destruct (buff_ st !! 0%nat) as [r|] eqn:Hr.
  - intros q Hq. apply list_elem_of_lookup_1 in Hq as [j Hj].
    by eapply heap_ord_root.
  - apply lookup_ge_None in Hr. destruct (buff_ st); [done|cbn in Hr; lia].
Qed.

Lemma nkey_app_l ns l p : (p < length ns)%nat → nkey (ns ++ l) p = nkey ns p.
Proof. intros Hp. unfold nkey. by rewrite lookup_app_l. Qed.

Lemma driver_inv_init : driver_inv init_state.
Proof.
  split_and!; [apply slot_inv_init| |done].
  intros j c _ p q Hp. cbn in Hp. by rewrite lookup_nil in Hp.
Qed.

Lemma run_cmd_correct st c :
  driver_inv st → Z.of_nat (length (nodes st)) + 1 < 2 ^ 31 →
  legal_cmds (length (nodes st)) [c] = true →
  ∃ st', run_cmd st c = Ok st' ∧ driver_inv st' ∧
    length (nodes st') =
      match c with Insert _ => S (length (nodes st)) | _ => length (nodes st) end.
Proof.
  intros (Hs & Ho & Hp) Hlen Hleg.
  assert (Hbl : length (buff_ st) = length (nodes st)).
  { by rewrite (Permutation_length Hp), length_seq. }
  assert (Hin : ∀ p, p ∈ buff_ st ↔ (p < length (nodes st))%nat).
  { intros p. rewrite Hp, elem_of_seq. lia. }
  destruct c as [n|h tp]; cbn [run_cmd make_shared].
  - set (st1 := {| nodes := nodes st ++ [n]; buff_ := buff_ st |}).
    assert (Hs1 : slot_inv st1).
    { intros i p Hi. destruct (Hs _ _ Hi) as (np & Hnp & Hidx). exists np.
      split; [|done]. cbn. by apply lookup_app_l_Some. }
    assert (Hn1 : nodes st1 !! length (nodes st) = Some n).
    { cbn. by apply list_lookup_middle. }
    assert (Hfresh : length (nodes st) ∉ buff_ st1).
    { cbn. rewrite Hin. lia. }
    destruct (push_and_sort_correct st1 (length (nodes st)) n Hs1) as
      (st' & Hrun & Hs' & _ & Hp' & Hn' & Ho'); try done.
    { cbn. lia. }
    exists st'. destruct Hn' as [Hl' Hn']. cbn in Hl'. rewrite length_app in Hl'.
    cbn in Hl'. unfold driver_inv. split_and!; [done|done| | |lia].
    + apply Ho'. intros j c Hjc p q Hpj Hqc. cbn in Hpj, Hqc |- *.
      rewrite !nkey_app_l; [by eapply Ho| |].
      * apply Hin. by eapply list_elem_of_lookup_2.
      * apply Hin. by eapply list_elem_of_lookup_2.
    + rewrite Hp'. cbn [buff_ st1]. rewrite Hp, <- Hl'.
      replace (length (nodes st) + 1)%nat with (S (length (nodes st))) by lia.
      rewrite seq_S. cbn. by rewrite <- Permutation_cons_append.
  - cbn in Hleg. rewrite andb_true_r in Hleg. apply Nat.ltb_lt in Hleg.
    apply Hin in Hleg. apply list_elem_of_lookup_1 in Hleg as [i Hi].
    destruct (Hs _ _ Hi) as (n & Hn & _).
    destruct (update_place_correct st h n i tp Hs) as
      (st' & Hrun & Hs' & Hp' & [Hl' _] & _ & Ho'); try done.
    { unfold small. lia. }
    cbn in Hl'. rewrite length_insert in Hl'.
    exists st'. unfold driver_inv. split_and!; [done|done|by apply Ho'| |done].
    by rewrite Hp', Hp, Hl'.
Qed.

Lemma run_cmds_correct cs : ∀ st,
  driver_inv st →
  Z.of_nat (length (nodes st)) + Z.of_nat (length cs) < 2 ^ 31 →
  legal_cmds (length (nodes st)) cs = true →
  ∃ st', run_cmds cs st = Ok st' ∧ driver_inv st'.
Proof.
  induction cs as [|c cs IH]; intros st Hinv Hlen Hleg; [by exists st|].
  cbn [run_cmds]. cbn [length] in Hlen.
  destruct (run_cmd_correct st c Hinv) as (st1 & Hrun & Hinv1 & Hl1); [lia| |].
  { destruct c; cbn in Hleg |- *; [done|].
    apply andb_true_iff in Hleg as [-> _]. done. }
  rewrite Hrun. cbn [bind]. apply IH; [done| |].
  - rewrite Hl1. destruct c; lia.
  - rewrite Hl1. destruct c; cbn in Hleg; [done|].
    by apply andb_true_iff in Hleg as [_ ->].
Qed.

(** C3. Heap-order invariant: after any sequence of push_and_sort and
    update_place calls that starts from the empty heap (handles are those of
    nodes inserted earlier; fewer than 2^31 commands), [top()] is a node with
    the minimum [next_tp] among all nodes in the heap.  In particular,
    inserting the deadlines 1000, 2000, 1500, 1300, 3000, 100 one at a time
    leaves [top()->next_tp] at the running minimum after each insertion. *)
Theorem C3_heap_order :
  (∀ cs, legal_cmds 0 cs = true → Z.of_nat (length cs) < 2 ^ 31 →
     ∃ st, run_cmds cs init_state = Ok st ∧ root_is_min st) ∧
  roots_after init_state [1000; 2000; 1500; 1300; 3000; 100]
    = [Ok 1000; Ok 1000; Ok 1000; Ok 1000; Ok 1000; Ok 100].
Proof.
  split; [|by vm_compute].
  intros cs Hleg Hlen.
  destruct (run_cmds_correct cs init_state driver_inv_init) as (st & Hrun & Hinv).
  { cbn. lia. }
  { done. }
  exists st. split; [done|]. apply root_is_min_of_ord. by destruct Hinv as (_ & ? & _).
Qed.

(** ** [update_place] as used by start / stop / set_interval *)

(** C5. Reposition: [update_place(h, tp)] on a node of the heap succeeds and
    leaves [h->next_tp == tp].  If [tp] is strictly greater than the old
    deadline the result is that of [percolate_down] at the node's slot, the
    node does not move towards the root and the slots before it are
    untouched; if strictly smaller the result is that of [percolate_up], the
    node does not move away from the root and the slots after it are
    untouched; if equal the state is unchanged. *)
Theorem C5_reposition st h n (i : nat) tp :
  slot_inv st → small st → buff_ st !! i = Some h → nodes st !! h = Some n →
  ∃ st' n' (i' : nat),
    MinHeap.update_place st h tp = Ok st'
    ∧ nodes st' !! h = Some n' ∧ next_tp n' = tp
    ∧ buff_ st' !! i' = Some h ∧ index n' = Z.of_nat i'
    ∧ (next_tp n < tp →
         MinHeap.percolate_down (assign st h (with_next_tp n tp)) (Z.of_nat i) = Ok st'
         ∧ (i ≤ i')%nat ∧ ∀ j, (j < i)%nat → buff_ st' !! j = buff_ st !! j)
    ∧ (tp < next_tp n →
         MinHeap.percolate_up (assign st h (with_next_tp n tp)) (Z.of_nat i) = Ok st'
         ∧ (i' ≤ i)%nat ∧ ∀ j, (i < j)%nat → buff_ st' !! j = buff_ st !! j)
    ∧ (tp = next_tp n → st' = st).
Proof.
  intros Hs Hsm Hi Hn.
  destruct (update_place_correct st h n i tp Hs Hsm Hi Hn)
    as (st' & Hrun & Hs' & _ & [_ Hsame] & (i' & Hi' & Hdn & Hup & Heq) & _).
  destruct (Hsame h (with_next_tp n tp)) as (n' & Hn' & Hd).
  { cbn. by rewrite list_lookup_insert_eq by (by eapply lookup_lt_Some). }
  destruct (Hs' _ _ Hi') as (n2 & Hn2 & Hidx). assert (n2 = n') as -> by congruence.
  exists st', n', i'. split_and!; try done.
  - rewrite Hd. done.
  - intros Hlt. apply Hdn. lia.
Qed.

(** ** [Timer] destruction *)


(** ** [check_task] *)

Lemma check_task_iter_not_due st r n now :
  buff_ st !! 0%nat = Some r → nodes st !! r = Some n → now < next_tp n →
  TimerManager.check_task_iter st now = Ok (st, TimerManager.SleepNotDue).
Proof.
  intros Hr Hn Hlt. unfold TimerManager.check_task_iter.
  assert (MinHeap.empty st = false) as -> by (apply empty_false_root; eauto).
  unfold MinHeap.top. rewrite (at_0 _ _ Hr). cbn [bind].
  rewrite (deref_lookup _ _ _ Hn). cbn [bind].
  destruct (Z.gtb_spec (next_tp n) now); [done|lia].
Qed.

Lemma check_task_iter_due st r n now :
  slot_inv st → small st →
  buff_ st !! 0%nat = Some r → nodes st !! r = Some n → next_tp n ≤ now →
  let next := if interval_ns n =? 0 then UINT64_MAX
              else wrap64 (now + interval_ns n) in
  ∃ st' o n',
    TimerManager.check_task_iter st now = Ok (st', o)
    ∧ MinHeap.update_top st next = Ok st'
    ∧ (o = TimerManager.Return r ∨ ∃ p, o = TimerManager.ContinueRunning p)
    ∧ nodes st' !! r = Some n' ∧ same_data (with_next_tp n next) n'.
Proof.
  intros Hs Hsm Hr Hn Hdue next. unfold TimerManager.check_task_iter.
  assert (MinHeap.empty st = false) as -> by (apply empty_false_root; eauto).
  unfold MinHeap.top. rewrite (at_0 _ _ Hr). cbn [bind].
  rewrite (deref_lookup _ _ _ Hn). cbn [bind].
  destruct (Z.gtb_spec (next_tp n) now); [lia|]. fold next.
  destruct (update_top_correct st r Hs Hsm Hr next)
    as (st' & n0 & Hrun & Hn0 & Hs' & Hp & [_ Hsame] & _).
  assert (n0 = n) as -> by congruence.
  rewrite Hrun. cbn [bind].
  destruct (lookup_lt_is_Some_2 (buff_ st') 0) as [r' Hr'].
  { rewrite (Permutation_length Hp). by eapply lookup_lt_Some. }
  unfold MinHeap.subscript. change (Z.to_nat 0) with 0%nat.
  rewrite Hr'. cbn [bind].
  destruct (Hs' _ _ Hr') as (nr' & Hnr' & _).
  rewrite (deref_lookup _ _ _ Hnr'). cbn [bind].
  destruct (Hsame r (with_next_tp n next)) as (n' & Hn' & Hd).
  { cbn. by rewrite list_lookup_insert_eq by (by eapply lookup_lt_Some). }
  destruct (running nr'); eexists _, _, n'; (split_and!; [done|done| |done|done]);
    eauto.
Qed.

(** What [check_task] of this file does with a due root
    ([next_tp <= curr_ns]): the node's next deadline is [UINT64_MAX] if its
    interval is zero and otherwise [curr_ns + interval_ns] (modulo 2^64),
    counted from the clock reading; the state the iteration hands back,
    before any callback is run, already has the root's deadline replaced by
    that value.  For an interval of zero an iteration that finds this node
    at the root at any clock reading below [UINT64_MAX] does not find it
    due. *)
Lemma check_task_iter_next_deadline st r n now :
  slot_inv st → small st →
  buff_ st !! 0%nat = Some r → nodes st !! r = Some n → next_tp n ≤ now →
  ∃ st' o n',
    TimerManager.check_task_iter st now = Ok (st', o)
    ∧ (o = TimerManager.Return r ∨ ∃ p, o = TimerManager.ContinueRunning p)
    ∧ nodes st' !! r = Some n'
    ∧ next_tp n' = (if interval_ns n =? 0 then UINT64_MAX
                    else wrap64 (now + interval_ns n))
    ∧ (interval_ns n = 0 →
         next_tp n' = UINT64_MAX ∧
         ∀ st2 now', buff_ st2 !! 0%nat = Some r → nodes st2 !! r = Some n' →
           now' < UINT64_MAX →
           TimerManager.check_task_iter st2 now'
             = Ok (st2, TimerManager.SleepNotDue)).
Proof.
  intros Hs Hsm Hr Hn Hdue.
  destruct (check_task_iter_due st r n now Hs Hsm Hr Hn Hdue)
    as (st' & o & n' & Hrun & _ & Ho & Hn' & Hd).
  assert (Hk : next_tp n' = if interval_ns n =? 0 then UINT64_MAX
                            else wrap64 (now + interval_ns n)).
  { rewrite Hd. done. }
  exists st', o, n'. split_and!; try done.
  intros Hz. rewrite Hz in Hk. cbn in Hk. split; [done|].
  intros st2 now' Hr2 Hn2 Hlt. eapply check_task_iter_not_due; eauto. lia.
Qed.

(** C6 (the code at the failing input).  Node 0 is due at clock reading 2100
    and its callback is still running; [update_top(3100)] sifts it down and
    node 1 becomes the root, so the test of [handler->running] reads node 1
    and [check_task] returns node 0, whose callback [check_and_dispatch] then
    invokes. *)
Theorem C6_running_test_reads_new_root :
  (∃ n, nodes overlap_state !! 0%nat = Some n ∧ running n = true
        ∧ buff_ overlap_state !! 0%nat = Some 0%nat ∧ next_tp n ≤ 2100)
  ∧ (∃ st', TimerManager.check_task_iter overlap_state 2100
              = Ok (st', TimerManager.Return 0%nat)
            ∧ buff_ st' = [1%nat; 0%nat]
            ∧ (∃ n', nodes st' !! 0%nat = Some n' ∧ running n' = true
                     ∧ next_tp n' = 3100))
  ∧ (∃ st', TimerManager.check_and_dispatch overlap_state [2100]
              = Ok (st', [TimerManager.Invoke 0%nat 0%nat])).
Proof.
  split_and!.
  - eexists. split_and!; [reflexivity..|]. cbn. lia.
  - eexists. split_and!; [vm_compute; reflexivity|reflexivity|].
    eexists. split_and!; reflexivity.
  - eexists. vm_compute. reflexivity.
Qed.

(** C7. A null handle: [start], [stop] and [set_interval] return 0 and leave
    the heap and every node as they were. *)
Theorem C7_null_handle_noop st now ms :
  TimerManager.start st None now = Ok (st, 0)
  ∧ TimerManager.stop st None = Ok (st, 0)
  ∧ TimerManager.set_interval st None ms now = Ok (st, 0).
Proof. by split_and!. Qed.

(** C8. [top()] throws [std::out_of_range] exactly when the heap is empty and
    returns the root otherwise; an iteration of [check_task] on an empty heap
    sleeps without calling [top()], and on every well-formed heap it
    completes without an error. *)
Theorem C8_top_guarded :
  (∀ st, MinHeap.top st = Err OutOfRange ↔ MinHeap.empty st = true)
  ∧ (∀ st, MinHeap.empty st = false ↔ ∃ r, MinHeap.top st = Ok r)
  ∧ (∀ st now, MinHeap.empty st = true →
       TimerManager.check_task_iter st now = Ok (st, TimerManager.SleepEmpty))
  ∧ (∀ st now, slot_inv st → small st →
       ∃ r, TimerManager.check_task_iter st now = Ok r).
Proof.
  split_and!.
  - intros st. unfold MinHeap.top, MinHeap.at_, MinHeap.empty.
    change (Z.to_nat 0) with 0%nat. by destruct (buff_ st).
  - intros st. unfold MinHeap.top, MinHeap.at_, MinHeap.empty.
    change (Z.to_nat 0) with 0%nat. destruct (buff_ st) as [|r b]; cbn.
    + split; [done|]. by intros [r Hr].
    + split; [by exists r|done].
  - intros st now He. unfold TimerManager.check_task_iter. by rewrite He.
  - intros st now Hs Hsm. destruct (MinHeap.empty st) eqn:He.
    { eexists. unfold TimerManager.check_task_iter. by rewrite He. }
    apply empty_false_root in He as [r Hr].
    destruct (Hs _ _ Hr) as (n & Hn & _).
    destruct (Z.lt_ge_cases now (next_tp n)) as [Hlt|Hge].
    + eexists. by eapply check_task_iter_not_due.
    + destruct (check_task_iter_due st r n now Hs Hsm Hr Hn Hge)
        as (st' & o & n' & Hrun & _). eauto.
Qed.

(** ** The millisecond interface *)

(** C4 (the code at the failing input).  [set_interval(10000)], the call made
    by the test program, stores 10000 * 1000 * 1000 reduced modulo 2^32, so
    [interval()] then returns 1410; the product is exact only up to 4294 ms. *)
Theorem C4_set_interval_wraps :
  interval_after_set 5000 10000 0 = Ok 1410
  ∧ interval_after_set 5000 4294 0 = Ok 4294
  ∧ interval_after_set 5000 4295 0 = Ok 0.
Proof. split_and!; vm_compute; reflexivity. Qed.

(** C10. Construction stores [interval_ms * 1000000] nanoseconds exactly: the
    product is formed in 64-bit arithmetic and fits, so [interval()] read
    right after construction returns [interval_ms] for every 32-bit value;
    the same value given to [set_interval] need not come back. *)
Theorem C10_constructor_interval_exact :
  (∀ st name func interval_ms delay_ms,
     0 ≤ interval_ms < 2 ^ 32 →
     ∃ st' h n,
       Timer.construct st name func interval_ms delay_ms = Ok (st', Some h)
       ∧ nodes st' !! h = Some n
       ∧ interval_ns n = interval_ms * 1000000
       ∧ interval_ns n < 2 ^ 64
       ∧ Timer.interval st' h = Ok interval_ms)
  ∧ interval_after_set 10000 10000 0 = Ok 1410.
Proof.
  split; [|by vm_compute].
  intros st nm fn ms dl Hms.
  unfold Timer.construct, TimerManager.add_timer, make_shared.
  set (h := length (nodes st)).
  assert (Hh : (nodes st ++ [new_node]) !! h = Some new_node)
    by (by apply list_lookup_middle).
  unfold deref at 1. cbn [nodes]. rewrite Hh. cbn [bind].
  unfold MinHeap.push, set_index, deref, assign. cbn [nodes buff_].
  assert (Hlt : (h < length (nodes st ++ [new_node]))%nat) by (by eapply lookup_lt_Some).
  rewrite list_lookup_insert_eq by done. cbn [bind].
  eexists _, h, _. split; [reflexivity|]. cbn [nodes].
  assert (Hw : wrap64 (1000 * 1000 * ms) = ms * 1000000).
  { rewrite wrap64_small; lia. }
  split_and!.
  - rewrite list_lookup_insert_eq; [done|]. by rewrite length_insert.
  - cbn. exact Hw.
  - cbn. rewrite Hw. lia.
  - unfold Timer.interval, deref. cbn [nodes].
    rewrite list_lookup_insert_eq by (by rewrite length_insert).
    cbn [bind interval_ns with_index]. rewrite Hw. f_equal.
    rewrite wrap32_small; lia.
Qed.

(** ** The theorems at concrete inputs *)

Lemma slot_inv_two_timers : slot_inv two_timers.
Proof.
  intros [|[|i]] p Hi; cbn in Hi; simplify_eq; eexists; split; reflexivity.
Qed.

Lemma slot_inv_periodic_state : slot_inv periodic_state.
Proof.
  intros [|i] p Hi; cbn in Hi; simplify_eq; eexists; split; reflexivity.
Qed.

Lemma small_two_timers : small two_timers.
Proof. unfold small. cbn. lia. Qed.

Lemma small_periodic_state : small periodic_state.
Proof. unfold small. cbn. lia. Qed.

(** C1 (the code at the failing input).  A timer with a 5 ms interval is
    started at clock reading 100 and found due at clock reading 1000: the
    claim puts its next deadline at 100 + 5000000 = 5000100, the previous
    deadline plus the interval; [check_task] of this file replaces the root's
    deadline by 1000 + 5000000 = 5001000, the clock reading plus the
    interval. *)
Theorem C1_next_deadline_counted_from_clock :
  ∃ st0 st1 st2 n1 n2,
    Timer.construct init_state "t" (Some 0%nat) 5 0 = Ok (st0, Some 0%nat)
    ∧ Timer.start st0 (Some 0%nat) 100 = Ok (st1, 0)
    ∧ nodes st1 !! 0%nat = Some n1
    ∧ next_tp n1 = 100 ∧ interval_ns n1 = 5000000
    ∧ TimerManager.check_task_iter st1 1000 = Ok (st2, TimerManager.Return 0%nat)
    ∧ nodes st2 !! 0%nat = Some n2
    ∧ next_tp n2 = 5001000
    ∧ wrap64 (next_tp n1 + interval_ns n1) = 5000100.
Proof.
  eexists _, _, _, _, _.
  split; [vm_compute; reflexivity|].
  split; [vm_compute; reflexivity|].
  split; [reflexivity|]. split; [reflexivity|]. split; [reflexivity|].
  split; [vm_compute; reflexivity|].
  split; [reflexivity|]. split; reflexivity.
Qed.

(** [check_task_iter_next_deadline] at [periodic_state], observed at clock
    reading 1000. *)
Lemma check_task_iter_next_deadline_example :
  slot_inv periodic_state ∧ small periodic_state ∧
  ∃ st' o n',
    TimerManager.check_task_iter periodic_state 1000 = Ok (st', o)
    ∧ (o = TimerManager.Return 0%nat ∨ ∃ p, o = TimerManager.ContinueRunning p)
    ∧ nodes st' !! 0%nat = Some n'
    ∧ next_tp n' = 1050.
Proof.
  split; [exact slot_inv_periodic_state|]. split; [exact small_periodic_state|].
  destruct (check_task_iter_next_deadline periodic_state 0%nat
              {| name := "tick"; func := Some 0%nat; index := 0;
                 interval_ns := 50; delay_ns := 0; next_tp := 100;
                 running := false |} 1000
              slot_inv_periodic_state small_periodic_state eq_refl eq_refl)
    as (st' & o & n' & Hrun & Ho & Hn' & Hk & _).
  { cbn. lia. }
  exists st', o, n'. split_and!; [exact Hrun|exact Ho|exact Hn'|exact Hk].
Defined.

(** C2 at [two_timers], repositioning the root to deadline 500. *)
Lemma C2_witness :
  slot_inv two_timers ∧ small two_timers ∧
  op_legal two_timers (OpUpdatePlace 0%nat 500) ∧
  ∃ st', run_op two_timers (OpUpdatePlace 0%nat 500) = Ok st' ∧ slot_inv st' ∧
    small st' ∧ ∀ v, v ∈ buff_ st' →
      ∃ n, deref st' v = Ok n ∧ MinHeap.at_ st' (index n) = Ok v.
Proof.
  assert (Hl : op_legal two_timers (OpUpdatePlace 0%nat 500)).
  { cbn. apply list_elem_of_here. }
  split; [exact slot_inv_two_timers|]. split; [exact small_two_timers|].
  split; [exact Hl|].
  exact (C2_slot_invariant two_timers (OpUpdatePlace 0%nat 500)
           slot_inv_two_timers small_two_timers Hl).
Defined.

(** C3 for two insertions followed by a reposition of the first node. *)
Lemma C3_witness :
  let cs := [Insert (with_next_tp new_node 1000);
             Insert (with_next_tp new_node 2000);
             Reposition 0%nat 3000] in
  legal_cmds 0 cs = true ∧ Z.of_nat (length cs) < 2 ^ 31 ∧
  ∃ st, run_cmds cs init_state = Ok st ∧ root_is_min st.
Proof.
  intros cs.
  assert (Hlen : Z.of_nat (length cs) < 2 ^ 31) by (cbn; lia).
  split; [reflexivity|]. split; [exact Hlen|].
  exact (proj1 C3_heap_order cs eq_refl Hlen).
Defined.

(** C5 at [two_timers], moving the root from deadline 100 to 500. *)
Lemma C5_witness :
  slot_inv two_timers ∧ small two_timers ∧
  ∃ st' n' (i' : nat),
    MinHeap.update_place two_timers 0%nat 500 = Ok st'
    ∧ nodes st' !! 0%nat = Some n' ∧ next_tp n' = 500
    ∧ buff_ st' !! i' = Some 0%nat ∧ (0 ≤ i')%nat.
Proof.
  split; [exact slot_inv_two_timers|]. split; [exact small_two_timers|].
  destruct (C5_reposition two_timers 0%nat
              {| name := "a"; func := None; index := 0;
                 interval_ns := 0; delay_ns := 0; next_tp := 100;
                 running := false |} 0%nat 500
              slot_inv_two_timers small_two_timers eq_refl eq_refl)
    as (st' & n' & i' & Hrun & Hn' & Hk & Hi' & _ & Hdn & _).
  exists st', n', i'. split_and!; [exact Hrun|exact Hn'|exact Hk|exact Hi'|lia].
Defined.

(** C8 at [two_timers], clock reading 150. *)
Lemma C8_witness :
  slot_inv two_timers ∧ small two_timers ∧
  ∃ r, TimerManager.check_task_iter two_timers 150 = Ok r.
Proof.
  split; [exact slot_inv_two_timers|]. split; [exact small_two_timers|].
  destruct C8_top_guarded as (_ & _ & _ & H).
  exact (H two_timers 150 slot_inv_two_timers small_two_timers).
Defined.



(** C10 at the largest 32-bit interval. *)
Lemma C10_witness :
  0 ≤ 4294967295 < 2 ^ 32 ∧
  ∃ st' h n,
    Timer.construct init_state "t" None 4294967295 0 = Ok (st', Some h)
    ∧ nodes st' !! h = Some n
    ∧ interval_ns n = 4294967295 * 1000000
    ∧ interval_ns n < 2 ^ 64
    ∧ Timer.interval st' h = Ok 4294967295.
Proof.
  assert (H : 0 ≤ 4294967295 < 2 ^ 32) by lia.
  split; [exact H|].
  exact (proj1 C10_constructor_interval_exact init_state "t" None 4294967295 0 H).
Defined.


(** * Further properties of the code *)

(** ** The clock *)

Lemma long_result_in_range r :
  LONG_MIN ≤ r ≤ LONG_MAX → long_result r = Some r.
Proof.
  intros [Hl Hu]. unfold long_result.
  destruct (Z.leb_spec LONG_MIN r); [|lia].
  destruct (Z.leb_spec r LONG_MAX); [done|lia].
Qed.

Lemma get_system_ns_value sec nsec :
  0 ≤ sec ≤ 9223372035 → 0 ≤ nsec < 1000000000 →
  get_system_ns sec nsec = Some (sec * 1000000000 + nsec).
Proof.
  intros Hs Hn. unfold get_system_ns.
  rewrite !long_result_in_range by (unfold LONG_MIN, LONG_MAX; lia).
  f_equal. rewrite wrap64_small; lia.
Qed.

(** X1. The clock reading: for a normalised [timespec] (0 <= tv_nsec < 10^9)
    with 0 <= tv_sec <= 9223372035, [get_system_ns] computes
    tv_sec * 10^9 + tv_nsec without signed overflow and without wrapping, so
    the seconds and nanoseconds can be read back from it and two readings
    compare exactly as their [timespec]s do. *)
Theorem X1_get_system_ns_exact sec1 nsec1 sec2 nsec2 :
  0 ≤ sec1 ≤ 9223372035 → 0 ≤ nsec1 < 1000000000 →
  0 ≤ sec2 ≤ 9223372035 → 0 ≤ nsec2 < 1000000000 →
  ∃ t1 t2,
    get_system_ns sec1 nsec1 = Some t1 ∧ get_system_ns sec2 nsec2 = Some t2
    ∧ t1 = sec1 * 1000000000 + nsec1
    ∧ 0 ≤ t1 < 2 ^ 63
    ∧ t1 / 1000000000 = sec1 ∧ t1 mod 1000000000 = nsec1
    ∧ (t1 < t2 ↔ sec1 < sec2 ∨ (sec1 = sec2 ∧ nsec1 < nsec2)).
Proof.
  intros Hs1 Hn1 Hs2 Hn2.
  exists (sec1 * 1000000000 + nsec1), (sec2 * 1000000000 + nsec2).
  split_and!; try (by apply get_system_ns_value); try done; lia.
Qed.

(** X1 at two readings one nanosecond apart across a second boundary. *)
Lemma X1_witness :
  ∃ t1 t2,
    get_system_ns 41 999999999 = Some t1 ∧ get_system_ns 42 0 = Some t2
    ∧ t1 = 41999999999 ∧ t1 < t2.
Proof.
  destruct (X1_get_system_ns_exact 41 999999999 42 0)
    as (t1 & t2 & H1 & H2 & Ht & _ & _ & _ & Hlt); try lia.
  exists t1, t2. split_and!; [exact H1|exact H2|lia|apply Hlt; lia].
Defined.

(** ** logger.hpp *)

Lemma char_at_lookup s (i : nat) c :
  s !! i = Some c → char_at s (Z.of_nat i) = Ok c.
Proof. intros H. unfold char_at. by rewrite Nat2Z.id, H. Qed.

Lemma char_at_end s : char_at s (Z.of_nat (length s)) = Ok NUL.
Proof.
  unfold char_at. rewrite Nat2Z.id, (proj2 (lookup_ge_None s (length s))) by lia.
  by rewrite Z.eqb_refl.
Qed.

Lemma base_file_name_loop_spec s :
  NUL ∉ s → Z.of_nat (length s) < 2 ^ 32 →
  ∀ fuel (i idx : nat),
    (i ≤ length s)%nat → (length s - i < fuel)%nat →
    (∀ j, (idx < j < i)%nat → s !! j ≠ Some PATH_SEP) →
    (s !! idx = Some PATH_SEP ∨
       (idx = 0%nat ∧ ∀ j, (j < i)%nat → s !! j ≠ Some PATH_SEP)) →
    ∃ idx' : nat,
      base_file_name_loop fuel s (Z.of_nat i) (Z.of_nat idx) = Ok (Z.of_nat idx')
      ∧ (∀ j, (idx' < j)%nat → s !! j ≠ Some PATH_SEP)
      ∧ (s !! idx' = Some PATH_SEP ∨
           (idx' = 0%nat ∧ ∀ j, s !! j ≠ Some PATH_SEP)).
Proof.
  intros Hnul Hlen. induction fuel as [|fuel IH]; intros i idx Hi Hf Hafter Hidx;
    [lia|].
  cbn [base_file_name_loop].
  destruct (decide (i = length s)) as [->|Hne].
  - rewrite char_at_end. cbn [bind]. rewrite Ascii.eqb_refl.
    exists idx. split; [done|]. split.
    + intros j Hj. destruct (decide (j < length s)%nat); [apply Hafter; lia|].
      by rewrite (proj2 (lookup_ge_None s j)) by lia.
    + destruct Hidx as [?|[-> Hno]]; [by left|]. right. split; [done|].
      intros j. destruct (decide (j < length s)%nat); [by apply Hno|].
      by rewrite (proj2 (lookup_ge_None s j)) by lia.
  - destruct (lookup_lt_is_Some_2 s i) as [c Hc]; [lia|].
    rewrite (char_at_lookup _ _ _ Hc). cbn [bind].
    destruct (Ascii.eqb_spec c NUL) as [->|_].
    { exfalso. apply Hnul. by eapply list_elem_of_lookup_2. }
    assert (wrap32 (Z.of_nat i + 1) = Z.of_nat (S i)) as ->
      by (rewrite wrap32_small; lia).
    destruct (Ascii.eqb_spec c PATH_SEP) as [->|Hsep].
    + apply IH; [lia|lia| |by left]. intros j Hj. lia.
    + apply IH; [lia|lia| |].
      * intros j Hj. destruct (decide (j = i)) as [->|]; [congruence|].
        apply Hafter. lia.
      * destruct Hidx as [?|[-> Hno]]; [by left|]. right. split; [done|].
        intros j Hj. destruct (decide (j = i)) as [->|]; [congruence|].
        apply Hno. lia.
Qed.

(** X2. [log_base_file_name] on a path shorter than 2^32 characters returns
    the part after the last '/': the result contains no '/', and the path is
    either the result itself (when the path has no '/') or some directory
    part, a '/', and the result.  A path that ends in '/' gives the empty
    string. *)
Theorem X2_log_base_file_name s :
  NUL ∉ s → Z.of_nat (length s) < 2 ^ 32 →
  ∃ r, log_base_file_name s = Ok r
    ∧ (PATH_SEP ∉ r)
    ∧ (((PATH_SEP ∉ s) ∧ r = s) ∨ ∃ d, s = d ++ PATH_SEP :: r).
Proof.
  intros Hnul Hlen. unfold log_base_file_name.
  destruct (base_file_name_loop_spec s Hnul Hlen (S (length s)) 0 0)
    as (idx & Hrun & Hafter & Hidx); [lia|lia|intros; lia| |].
  { right. split; [done|]. intros; lia. }
  change 0 with (Z.of_nat 0). rewrite Hrun. cbn [bind].
  destruct Hidx as [Hsep|[-> Hno]].
  - rewrite (char_at_lookup _ _ _ Hsep). cbn [bind]. rewrite Ascii.eqb_refl.
    replace (Z.to_nat (Z.of_nat idx + 1)) with (S idx) by lia.
    exists (drop (S idx) s). split_and!; [done| |].
    + intros Hin. apply list_elem_of_lookup_1 in Hin as [j Hj].
      rewrite lookup_drop in Hj. by apply (Hafter (S idx + j)%nat); [lia|].
    + right. exists (take idx s). symmetry. by apply take_drop_middle.
  - assert (Hnone : PATH_SEP ∉ s).
    { intros Hin. apply list_elem_of_lookup_1 in Hin as [j Hj]. by apply (Hno j). }
    exists s. destruct s as [|c s'].
    + cbn. split_and!; [done|done|by left].
    + cbn [char_at lookup]. change (char_at (c :: s') (Z.of_nat 0)) with (Ok (A:=ascii) c).
      cbn [bind]. destruct (Ascii.eqb_spec c PATH_SEP) as [->|_].
      { exfalso. apply Hnone. apply list_elem_of_here. }
      split_and!; [done|done|by left].
Qed.

(** X2 at a source path as [__FILE__] gives it. *)
Lemma X2_witness :
  let s := String.list_ascii_of_string "src/test/timer.cpp" in
  (NUL ∉ s) ∧ Z.of_nat (length s) < 2 ^ 32 ∧
  ∃ r, log_base_file_name s = Ok r ∧ (PATH_SEP ∉ r)
    ∧ (((PATH_SEP ∉ s) ∧ r = s) ∨ ∃ d, s = d ++ PATH_SEP :: r).
Proof.
  intros s.
  assert (Hnul : NUL ∉ s).
  { unfold s. cbn. rewrite !not_elem_of_cons. split_and!; try done.
    apply not_elem_of_nil. }
  assert (Hlen : Z.of_nat (length s) < 2 ^ 32) by (cbn; lia).
  split; [exact Hnul|]. split; [exact Hlen|].
  exact (X2_log_base_file_name s Hnul Hlen).
Defined.

(** ** More on the heap *)

(** X3. [find_min_child] on a slot of a well-formed heap never fails and
    never leaves the vector: it returns the slot itself when the slot has no
    child, and otherwise the slot of a child whose deadline is no later than
    that of any child of the slot. *)
Theorem X3_find_min_child st (pos : nat) :
  slot_inv st → small st → (pos < length (buff_ st))%nat →
  ∃ ci : nat,
    MinHeap.find_min_child st (Z.of_nat pos) = Ok (Z.of_nat ci)
    ∧ (ci < length (buff_ st))%nat
    ∧ ((ci = pos ∧ ∀ c, is_child pos c → buff_ st !! c = None) ∨
       (is_child pos ci ∧ ∃ qi, buff_ st !! ci = Some qi ∧
          ∀ c q, is_child pos c → buff_ st !! c = Some q →
            nkey (nodes st) qi ≤ nkey (nodes st) q)).
Proof.
  intros Hs Hsm Hpos.
  destruct (lookup_lt_is_Some_2 _ _ Hpos) as [tmp Htmp].
  destruct (find_min_child_spec st tmp pos (slot_hole_inv _ _ _ Hs Hsm Htmp))
    as (ci & Hrun & Hcase).
  exists ci. split_and!; [done| |done].
  destruct Hcase as [[-> _]|[_ (qi & Hqi & _)]]; [done|by eapply lookup_lt_Some].
Qed.

(** X3 at the root of [two_timers]: its only child is slot 1. *)
Lemma X3_witness :
  slot_inv two_timers ∧ small two_timers ∧ (0 < length (buff_ two_timers))%nat ∧
  ∃ ci : nat,
    MinHeap.find_min_child two_timers (Z.of_nat 0) = Ok (Z.of_nat ci)
    ∧ (ci < length (buff_ two_timers))%nat.
Proof.
  assert (Hlt : (0 < length (buff_ two_timers))%nat) by (cbn; lia).
  split; [exact slot_inv_two_timers|]. split; [exact small_two_timers|].
  split; [exact Hlt|].
  destruct (X3_find_min_child two_timers 0 slot_inv_two_timers small_two_timers Hlt)
    as (ci & Hrun & Hci & _).
  exists ci. split; [exact Hrun|exact Hci].
Defined.

(** X4. [update_top(tp)] on a non-empty, ordered heap succeeds for every
    [tp], earlier or later than the old deadline: the old root gets deadline
    [tp], the heap is ordered again, and [top()] is a node with the minimum
    deadline. *)
Theorem X4_update_top_restores_order st sp tp :
  slot_inv st → small st → heap_ord (nodes st) (buff_ st) →
  buff_ st !! 0%nat = Some sp →
  ∃ st' n',
    MinHeap.update_top st tp = Ok st'
    ∧ nodes st' !! sp = Some n' ∧ next_tp n' = tp
    ∧ slot_inv st' ∧ heap_ord (nodes st') (buff_ st')
    ∧ buff_ st' ≡ₚ buff_ st
    ∧ root_is_min st'.
Proof.
  intros Hs Hsm Ho H0.
  destruct (update_top_correct st sp Hs Hsm H0 tp)
    as (st' & n & Hrun & Hn & Hs' & Hp & [_ Hsame] & Hord).
  destruct (Hsame sp (with_next_tp n tp)) as (n' & Hn' & Hd).
  { cbn. by rewrite list_lookup_insert_eq by (by eapply lookup_lt_Some). }
  exists st', n'. split_and!; try done.
  - by rewrite Hd.
  - by apply Hord.
  - by apply root_is_min_of_ord, Hord.
Qed.

Lemma heap_ord_two_timers : heap_ord (nodes two_timers) (buff_ two_timers).
Proof.
  intros j c Hc p q Hp Hq. pose proof (lookup_lt_Some _ _ _ Hq) as Hlt.
  cbn in Hlt. unfold is_child in Hc.
  assert (j = 0%nat ∧ c = 1%nat) as [-> ->] by lia.
  cbn in Hp, Hq. simplify_eq. unfold nkey. cbn. lia.
Qed.

(** X4 at [two_timers], with a new deadline later than both nodes. *)
Lemma X4_witness :
  slot_inv two_timers ∧ small two_timers ∧
  heap_ord (nodes two_timers) (buff_ two_timers) ∧
  ∃ st' n',
    MinHeap.update_top two_timers 4500 = Ok st'
    ∧ nodes st' !! 0%nat = Some n' ∧ next_tp n' = 4500 ∧ root_is_min st'.
Proof.
  split; [exact slot_inv_two_timers|]. split; [exact small_two_timers|].
  split; [exact heap_ord_two_timers|].
  destruct (X4_update_top_restores_order two_timers 0%nat 4500
              slot_inv_two_timers small_two_timers heap_ord_two_timers eq_refl)
    as (st' & n' & Hrun & Hn' & Hk & _ & _ & _ & Hmin).
  exists st', n'. split_and!; [exact Hrun|exact Hn'|exact Hk|exact Hmin].
Defined.

Lemma nodes_same_payload ns ns' p n :
  nodes_same ns ns' → ns !! p = Some n →
  ∃ n', ns' !! p = Some n' ∧ same_payload n n' ∧ next_tp n' = next_tp n.
Proof.
  intros [_ H] Hn. destruct (H _ _ Hn) as (n' & Hn' & Hd). exists n'.
  split; [done|]. rewrite Hd. by split.
Qed.

Lemma rekey_payload st q nq tp st' p n :
  nodes st !! q = Some nq →
  nodes_same (nodes (assign st q (with_next_tp nq tp))) (nodes st') →
  nodes st !! p = Some n →
  ∃ n', nodes st' !! p = Some n' ∧ same_payload n n' ∧
    next_tp n' = if decide (p = q) then tp else next_tp n.
Proof.
  intros Hq Hsame Hn. destruct (decide (p = q)) as [->|Hne].
  - assert (nq = n) as -> by congruence.
    destruct (nodes_same_payload _ _ q (with_next_tp n tp) Hsame)
      as (n' & Hn' & Hpay & Hk).
    { cbn. by rewrite list_lookup_insert_eq by (by eapply lookup_lt_Some). }
    by exists n'.
  - destruct (nodes_same_payload _ _ p n Hsame) as (n' & Hn' & Hpay & Hk).
    { cbn. by rewrite list_lookup_insert_ne. }
    by exists n'.
Qed.

(** X5. No heap operation loses, duplicates or invents a node, and none
    touches a node's name, callback, interval, delay or running flag: after
    any of push, push_and_sort, update_top, update_place, percolate_up,
    percolate_down the vector is a rearrangement of the old one (plus the
    pushed node), and a deadline changes only for the node that update_top
    or update_place re-keys. *)
Theorem X5_heap_ops_keep_nodes st op :
  slot_inv st → small st → op_legal st op →
  ∃ st', run_op st op = Ok st'
    ∧ buff_ st' ≡ₚ pushed op ++ buff_ st
    ∧ length (nodes st') = length (nodes st)
    ∧ ∀ p n, nodes st !! p = Some n →
        ∃ n', nodes st' !! p = Some n' ∧ same_payload n n' ∧
          next_tp n' = match rekeyed st op with
                       | Some (q, tp) => if decide (p = q) then tp else next_tp n
                       | None => next_tp n
                       end.
Proof.
  intros Hs Hsm Hl.
  destruct op as [h|h|tp|h tp|pos|pos]; cbn [run_op pushed rekeyed] in *;
    cbn in Hl.
  - destruct Hl as ([n Hn] & Hh & Hlen).
    destruct (push_correct st h n Hs Hlen Hn Hh) as (Hrun & _).
    eexists. split; [exact Hrun|]. cbn [buff_ nodes]. split_and!.
    + by rewrite <- Permutation_cons_append.
    + by rewrite length_insert.
    + intros p np Hnp. by eapply nodes_same_payload; [apply nodes_same_insert|].
  - destruct Hl as ([n Hn] & Hh & Hlen).
    destruct (push_and_sort_correct st h n Hs Hlen Hn Hh)
      as (st' & Hrun & _ & _ & Hp & Hsame & _).
    exists st'. split_and!; [done|done|by destruct Hsame|].
    intros p np Hnp. by eapply nodes_same_payload.
  - apply empty_false_root in Hl as [sp H0]. rewrite H0.
    destruct (update_top_correct st sp Hs Hsm H0 tp)
      as (st' & n & Hrun & Hn & _ & Hp & Hsame & _).
    exists st'. split_and!; [done|done| |].
    + destruct Hsame as [<- _]. cbn. by rewrite length_insert.
    + intros p np Hnp. by eapply rekey_payload.
  - apply list_elem_of_lookup_1 in Hl as [i Hi].
    destruct (Hs _ _ Hi) as (n & Hn & _).
    destruct (update_place_correct st h n i tp Hs Hsm Hi Hn)
      as (st' & Hrun & _ & Hp & Hsame & _).
    exists st'. split_and!; [done|done| |].
    + destruct Hsame as [<- _]. cbn. by rewrite length_insert.
    + intros p np Hnp. by eapply rekey_payload.
  - destruct (lookup_lt_is_Some_2 _ _ Hl) as [tmp Htmp].
    destruct (percolate_up_correct st pos tmp Hs Hsm Htmp)
      as (st' & Hrun & _ & Hp & Hsame & _).
    exists st'. split_and!; [done|done|by destruct Hsame|].
    intros p np Hnp. by eapply nodes_same_payload.
  - destruct (lookup_lt_is_Some_2 _ _ Hl) as [tmp Htmp].
    destruct (percolate_down_correct st pos tmp Hs Hsm Htmp)
      as (st' & Hrun & _ & Hp & Hsame & _).
    exists st'. split_and!; [done|done|by destruct Hsame|].
    intros p np Hnp. by eapply nodes_same_payload.
Qed.

(** X5 at [two_timers], replacing the root's deadline. *)
Lemma X5_witness :
  slot_inv two_timers ∧ small two_timers ∧
  op_legal two_timers (OpUpdateTop 4500) ∧
  ∃ st', run_op two_timers (OpUpdateTop 4500) = Ok st'
    ∧ buff_ st' ≡ₚ buff_ two_timers
    ∧ length (nodes st') = length (nodes two_timers).
Proof.
  assert (Hl : op_legal two_timers (OpUpdateTop 4500)) by reflexivity.
  split; [exact slot_inv_two_timers|]. split; [exact small_two_timers|].
  split; [exact Hl|].
  destruct (X5_heap_ops_keep_nodes two_timers (OpUpdateTop 4500)
              slot_inv_two_timers small_two_timers Hl)
    as (st' & Hrun & Hp & Hlen & _).
  exists st'. split_and!; [exact Hrun|exact Hp|exact Hlen].
Defined.

(** ** start, stop and set_interval on a live handle *)

Lemma update_place_same st h n :
  nodes st !! h = Some n → MinHeap.update_place st h (next_tp n) = Ok st.
Proof.
  intros Hn. unfold MinHeap.update_place, set_next_tp.
  rewrite (deref_lookup _ _ _ Hn). cbn [bind].
  destruct (Z.gtb_spec (next_tp n) (next_tp n)); [lia|].
  destruct (Z.ltb_spec (next_tp n) (next_tp n)); [lia|].
  by rewrite assign_same_next_tp.
Qed.

Lemma assign_slot_inv st h n n' :
  slot_inv st → nodes st !! h = Some n → index n' = index n →
  slot_inv (assign st h n').
Proof.
  intros Hs Hn Hidx i p Hi. cbn in *. destruct (Hs _ _ Hi) as (np & Hnp & Hpi).
  destruct (decide (p = h)) as [->|Hne].
  - assert (np = n) as -> by congruence. exists n'.
    rewrite list_lookup_insert_eq by (by eapply lookup_lt_Some). split; [done|lia].
  - exists np. by rewrite list_lookup_insert_ne.
Qed.

Lemma nkey_assign_same st h n n' p :
  nodes st !! h = Some n → next_tp n' = next_tp n →
  nkey (nodes (assign st h n')) p = nkey (nodes st) p.
Proof.
  intros Hn Hk. unfold nkey. cbn. destruct (decide (p = h)) as [->|Hne].
  - rewrite list_lookup_insert_eq by (by eapply lookup_lt_Some). by rewrite Hn.
  - by rewrite list_lookup_insert_ne.
Qed.

(** X6. [start] on a timer that is in the heap arms it: the node's deadline
    becomes [now + delay_ns] (modulo 2^64) and nothing else of it changes but
    its slot; the heap keeps its nodes and its order; and calling [start]
    again at the same clock reading changes nothing. *)
Theorem X6_start_arms_timer st h n (i : nat) now :
  slot_inv st → small st → buff_ st !! i = Some h → nodes st !! h = Some n →
  ∃ st' n',
    TimerManager.start st (Some h) now = Ok (st', 0)
    ∧ nodes st' !! h = Some n'
    ∧ next_tp n' = wrap64 (now + delay_ns n)
    ∧ same_payload n n'
    ∧ slot_inv st' ∧ buff_ st' ≡ₚ buff_ st
    ∧ (heap_ord (nodes st) (buff_ st) → heap_ord (nodes st') (buff_ st'))
    ∧ TimerManager.start st' (Some h) now = Ok (st', 0).
Proof.
  intros Hs Hsm Hi Hn.
  destruct (update_place_correct st h n i (wrap64 (now + delay_ns n)) Hs Hsm Hi Hn)
    as (st' & Hrun & Hs' & Hp & Hsame & _ & Hord).
  destruct (rekey_payload st h n _ st' h n Hn Hsame Hn) as (n' & Hn' & Hpay & Hk).
  rewrite decide_True in Hk by done.
  exists st', n'. unfold TimerManager.start.
  rewrite (deref_lookup _ _ _ Hn). cbn [bind]. rewrite Hrun. cbn [bind].
  split_and!; try done.
  rewrite (deref_lookup _ _ _ Hn'). cbn [bind].
  destruct Hpay as (_ & _ & _ & -> & _). rewrite <- Hk.
  by rewrite (update_place_same _ _ _ Hn').
Qed.

(** X6 at [two_timers], starting the second timer at clock reading 50. *)
Lemma X6_witness :
  slot_inv two_timers ∧ small two_timers ∧
  ∃ st' n',
    TimerManager.start two_timers (Some 1%nat) 50 = Ok (st', 0)
    ∧ nodes st' !! 1%nat = Some n' ∧ next_tp n' = 50
    ∧ TimerManager.start st' (Some 1%nat) 50 = Ok (st', 0).
Proof.
  split; [exact slot_inv_two_timers|]. split; [exact small_two_timers|].
  destruct (X6_start_arms_timer two_timers 1%nat
              {| name := "b"; func := None; index := 1;
                 interval_ns := 0; delay_ns := 0; next_tp := 200;
                 running := false |} 1%nat 50
              slot_inv_two_timers small_two_timers eq_refl eq_refl)
    as (st' & n' & Hrun & Hn' & Hk & _ & _ & _ & _ & Hagain).
  exists st', n'. split_and!; [exact Hrun|exact Hn'|exact Hk|exact Hagain].
Defined.

(** X7. Stopping twice is harmless: after [stop] on a timer that is in the
    heap, a second [stop], and so the destructor of a stopped [Timer],
    returns 0 and leaves the state exactly as it is. *)
Theorem X7_stop_twice st h (i : nat) :
  slot_inv st → small st → buff_ st !! i = Some h →
  ∃ st',
    TimerManager.stop st (Some h) = Ok (st', 0)
    ∧ TimerManager.stop st' (Some h) = Ok (st', 0)
    ∧ Timer.destruct_ st' (Some h) = Ok st'.
Proof.
  intros Hs Hsm Hi. destruct (Hs _ _ Hi) as (n & Hn & _).
  destruct (update_place_correct st h n i UINT64_MAX Hs Hsm Hi Hn)
    as (st' & Hrun & _ & _ & Hsame & _).
  destruct (rekey_payload st h n _ st' h n Hn Hsame Hn) as (n' & Hn' & _ & Hk).
  rewrite decide_True in Hk by done.
  assert (Hrun2 : MinHeap.update_place st' h UINT64_MAX = Ok st').
  { rewrite <- Hk. by apply update_place_same. }
  exists st'. unfold Timer.destruct_, TimerManager.stop.
  rewrite Hrun, Hrun2. by split_and!.
Qed.

(** X7 at [two_timers], stopping the timer at the root. *)
Lemma X7_witness :
  slot_inv two_timers ∧ small two_timers ∧
  ∃ st',
    TimerManager.stop two_timers (Some 0%nat) = Ok (st', 0)
    ∧ TimerManager.stop st' (Some 0%nat) = Ok (st', 0).
Proof.
  split; [exact slot_inv_two_timers|]. split; [exact small_two_timers|].
  destruct (X7_stop_twice two_timers 0%nat 0%nat
              slot_inv_two_timers small_two_timers eq_refl)
    as (st' & Hrun & Hagain & _).
  exists st'. split; [exact Hrun|exact Hagain].
Defined.

Lemma wrap32_ms_product ms :
  wrap32 (wrap32 (ms * 1000) * 1000) = (ms * 1000000) mod 2 ^ 32.
Proof.
  unfold wrap32. rewrite Z.mul_mod_idemp_l by lia. f_equal. lia.
Qed.

(** X8. [set_interval(ms)] on a timer that is in the heap stores
    [(ms * 1000000) mod 2^32] nanoseconds and restarts the cadence from the
    call: the deadline becomes [now] plus the stored interval (modulo 2^64).
    For [ms <= 4294] the stored interval is exactly [ms] milliseconds and
    [interval()] returns [ms]. *)
Theorem X8_set_interval st h n (i : nat) ms now :
  slot_inv st → small st → buff_ st !! i = Some h → nodes st !! h = Some n →
  0 ≤ ms < 2 ^ 32 →
  ∃ st' n',
    TimerManager.set_interval st (Some h) ms now = Ok (st', 0)
    ∧ nodes st' !! h = Some n'
    ∧ interval_ns n' = (ms * 1000000) mod 2 ^ 32
    ∧ next_tp n' = wrap64 (now + interval_ns n')
    ∧ name n' = name n ∧ func n' = func n ∧ delay_ns n' = delay_ns n
    ∧ running n' = running n
    ∧ slot_inv st' ∧ buff_ st' ≡ₚ buff_ st
    ∧ (heap_ord (nodes st) (buff_ st) → heap_ord (nodes st') (buff_ st'))
    ∧ (ms ≤ 4294 →
         interval_ns n' = ms * 1000000 ∧ Timer.interval st' h = Ok ms).
Proof.
  intros Hs Hsm Hi Hn Hms.
  set (v := wrap32 (wrap32 (ms * 1000) * 1000)).
  set (n0 := with_interval_ns n v).
  set (st0 := assign st h n0).
  assert (Hs0 : slot_inv st0) by (by eapply assign_slot_inv).
  assert (Hn0 : nodes st0 !! h = Some n0).
  { cbn. by rewrite list_lookup_insert_eq by (by eapply lookup_lt_Some). }
  assert (Hk0 : ∀ p, nkey (nodes st0) p = nkey (nodes st) p).
  { intros p. by eapply nkey_assign_same. }
  destruct (update_place_correct st0 h n0 i (wrap64 (now + v)) Hs0 Hsm Hi Hn0)
    as (st' & Hrun & Hs' & Hp & Hsame & _ & Hord).
  destruct (rekey_payload st0 h n0 _ st' h n0 Hn0 Hsame Hn0)
    as (n' & Hn' & (Hnm & Hfn & Hiv & Hdl & Hrn) & Hk).
  rewrite decide_True in Hk by done.
  assert (Hv : v = (ms * 1000000) mod 2 ^ 32) by apply wrap32_ms_product.
  exists st', n'. unfold TimerManager.set_interval.
  rewrite (deref_lookup _ _ _ Hn). cbn [bind]. fold v n0 st0.
  rewrite (deref_lookup _ _ _ Hn0). cbn [bind].
  change (interval_ns n0) with v. rewrite Hrun. cbn [bind].
  split_and!; try done.
  - by rewrite Hiv.
  - rewrite Hk, Hiv. done.
  - intros Ho. apply Hord. by eapply heap_ord_ext.
  - intros Hsmall. assert (Hex : interval_ns n' = ms * 1000000).
    { rewrite Hiv. cbn. rewrite Hv. apply Z.mod_small. lia. }
    split; [done|]. unfold Timer.interval.
    rewrite (deref_lookup _ _ _ Hn'). cbn [bind]. rewrite Hex. f_equal.
    rewrite wrap32_small; lia.
Qed.

(** X8 at [two_timers]: the call the test program makes first,
    [set_interval(1000)]. *)
Lemma X8_witness :
  slot_inv two_timers ∧ small two_timers ∧ 0 ≤ 1000 < 2 ^ 32 ∧
  ∃ st' n',
    TimerManager.set_interval two_timers (Some 0%nat) 1000 7 = Ok (st', 0)
    ∧ nodes st' !! 0%nat = Some n'
    ∧ interval_ns n' = 1000000000
    ∧ Timer.interval st' 0%nat = Ok 1000.
Proof.
  assert (Hms : 0 ≤ 1000 < 2 ^ 32) by lia.
  split; [exact slot_inv_two_timers|]. split; [exact small_two_timers|].
  split; [exact Hms|].
  destruct (X8_set_interval two_timers 0%nat
              {| name := "a"; func := None; index := 0;
                 interval_ns := 0; delay_ns := 0; next_tp := 100;
                 running := false |} 0%nat 1000 7
              slot_inv_two_timers small_two_timers eq_refl eq_refl Hms)
    as (st' & n' & Hrun & Hn' & _ & _ & _ & _ & _ & _ & _ & _ & _ & Hex).
  destruct Hex as [Hiv Hint]; [lia|].
  exists st', n'. split_and!; [exact Hrun|exact Hn'|exact Hiv|exact Hint].
Defined.

(** ** More on [check_task] *)

Lemma next_deadline_in_range iv now :
  (if iv =? 0 then UINT64_MAX else wrap64 (now + iv)) ≤ UINT64_MAX.
Proof.
  destruct (iv =? 0); [lia|]. unfold wrap64, UINT64_MAX.
  pose proof (Z.mod_pos_bound (now + iv) (2 ^ 64)). lia.
Qed.

Lemma check_task_iter_cases st now :
  slot_inv st → small st →
  (TimerManager.check_task_iter st now = Ok (st, TimerManager.SleepEmpty)
   ∧ buff_ st = [])
  ∨ (∃ r n, buff_ st !! 0%nat = Some r ∧ nodes st !! r = Some n
       ∧ now < next_tp n
       ∧ TimerManager.check_task_iter st now = Ok (st, TimerManager.SleepNotDue))
  ∨ (∃ r n st' o next,
       buff_ st !! 0%nat = Some r ∧ nodes st !! r = Some n
       ∧ next_tp n ≤ now ∧ next ≤ UINT64_MAX
       ∧ TimerManager.check_task_iter st now = Ok (st', o)
       ∧ (o = TimerManager.Return r ∨ ∃ p, o = TimerManager.ContinueRunning p)
       ∧ slot_inv st' ∧ buff_ st' ≡ₚ buff_ st
       ∧ nodes_same (nodes (assign st r (with_next_tp n next))) (nodes st')
       ∧ (heap_ord (nodes st) (buff_ st) → heap_ord (nodes st') (buff_ st'))).
Proof.
  intros Hs Hsm. destruct (MinHeap.empty st) eqn:He.
  { left. unfold TimerManager.check_task_iter. rewrite He. split; [done|].
    unfold MinHeap.empty in He. by destruct (buff_ st). }
  right. apply empty_false_root in He as [r Hr].
  destruct (Hs _ _ Hr) as (n & Hn & _).
  destruct (Z.lt_ge_cases now (next_tp n)) as [Hlt|Hge].
  { left. exists r, n. split_and!; try done. by eapply check_task_iter_not_due. }
  right.
  destruct (check_task_iter_due st r n now Hs Hsm Hr Hn Hge)
    as (st' & o & n' & Hrun & Hup & Ho & _).
  destruct (update_top_correct st r Hs Hsm Hr
              (if interval_ns n =? 0 then UINT64_MAX
               else wrap64 (now + interval_ns n)))
    as (st2 & n2 & Hup2 & Hn2 & Hs2 & Hp2 & Hsame2 & Hord2).
  assert (st2 = st') as -> by congruence. assert (n2 = n) as -> by congruence.
  exists r, n, st', o,
    (if interval_ns n =? 0 then UINT64_MAX else wrap64 (now + interval_ns n)).
  split_and!; try done. apply next_deadline_in_range.
Qed.

Lemma check_task_iter_due_root st r n now :
  slot_inv st → small st →
  buff_ st !! 0%nat = Some r → nodes st !! r = Some n → next_tp n ≤ now →
  ∃ st' p np,
    MinHeap.update_top st
      (if interval_ns n =? 0 then UINT64_MAX else wrap64 (now + interval_ns n))
      = Ok st'
    ∧ buff_ st' !! 0%nat = Some p ∧ nodes st' !! p = Some np
    ∧ TimerManager.check_task_iter st now =
        Ok (st', if running np then TimerManager.ContinueRunning p
                 else TimerManager.Return r).
Proof.
  intros Hs Hsm Hr Hn Hdue. unfold TimerManager.check_task_iter.
  assert (MinHeap.empty st = false) as -> by (apply empty_false_root; eauto).
  unfold MinHeap.top. rewrite (at_0 _ _ Hr). cbn [bind].
  rewrite (deref_lookup _ _ _ Hn). cbn [bind].
  destruct (Z.gtb_spec (next_tp n) now); [lia|].
  destruct (update_top_correct st r Hs Hsm Hr
              (if interval_ns n =? 0 then UINT64_MAX
               else wrap64 (now + interval_ns n)))
    as (st' & n0 & Hrun & _ & Hs' & Hp & _).
  rewrite Hrun. cbn [bind].
  destruct (lookup_lt_is_Some_2 (buff_ st') 0) as [p Hp0].
  { rewrite (Permutation_length Hp). by eapply lookup_lt_Some. }
  unfold MinHeap.subscript. change (Z.to_nat 0) with 0%nat.
  rewrite Hp0. cbn [bind].
  destruct (Hs' _ _ Hp0) as (np & Hnp & _).
  rewrite (deref_lookup _ _ _ Hnp). cbn [bind].
  exists st', p, np. split_and!; try done. by destruct (running np).
Qed.

(** X9. What one iteration of [check_task] decides on a well-formed, ordered
    heap.  It sleeps, leaving the state untouched, exactly when the heap is
    empty or every deadline in it lies after the clock reading.  Otherwise
    the root, which is due and has the minimum deadline of all nodes in the
    heap, is re-keyed, and the outcome follows the running flag of the node
    that is at the root after [update_top]: if that node is not running the
    old root is returned, and if it is running nothing is returned (warning,
    continue), the old root having been re-keyed all the same.  The heap is
    well-formed and ordered afterwards. *)
Theorem X9_check_task_iter_claims_earliest st now :
  slot_inv st → small st → heap_ord (nodes st) (buff_ st) →
  ∃ st' o,
    TimerManager.check_task_iter st now = Ok (st', o)
    ∧ slot_inv st' ∧ heap_ord (nodes st') (buff_ st')
    ∧ buff_ st' ≡ₚ buff_ st
    ∧ match o with
      | TimerManager.SleepEmpty => st' = st ∧ buff_ st = []
      | TimerManager.SleepNotDue =>
          st' = st ∧ buff_ st ≠ [] ∧ ∀ q, q ∈ buff_ st → now < nkey (nodes st) q
      | TimerManager.Return r =>
          buff_ st !! 0%nat = Some r ∧ nkey (nodes st) r ≤ now
          ∧ (∀ q, q ∈ buff_ st → nkey (nodes st) r ≤ nkey (nodes st) q)
          ∧ ∃ n n' p np,
              nodes st !! r = Some n ∧ nodes st' !! r = Some n'
              ∧ next_tp n' = (if interval_ns n =? 0 then UINT64_MAX
                              else wrap64 (now + interval_ns n))
              ∧ buff_ st' !! 0%nat = Some p ∧ nodes st' !! p = Some np
              ∧ running np = false
      | TimerManager.ContinueRunning p =>
          ∃ r n n' np,
            buff_ st !! 0%nat = Some r ∧ nkey (nodes st) r ≤ now
            ∧ (∀ q, q ∈ buff_ st → nkey (nodes st) r ≤ nkey (nodes st) q)
            ∧ nodes st !! r = Some n ∧ nodes st' !! r = Some n'
            ∧ next_tp n' = (if interval_ns n =? 0 then UINT64_MAX
                            else wrap64 (now + interval_ns n))
            ∧ buff_ st' !! 0%nat = Some p ∧ nodes st' !! p = Some np
            ∧ running np = true
      end.
Proof.
  intros Hs Hsm Ho.
  assert (Hmin : ∀ r, buff_ st !! 0%nat = Some r →
            ∀ q, q ∈ buff_ st → nkey (nodes st) r ≤ nkey (nodes st) q).
  { intros r Hr q Hq. apply list_elem_of_lookup_1 in Hq as [j Hj].
    by eapply heap_ord_root. }
  destruct (MinHeap.empty st) eqn:He.
  { exists st, TimerManager.SleepEmpty.
    unfold TimerManager.check_task_iter. rewrite He. split_and!; try done.
    unfold MinHeap.empty in He. by destruct (buff_ st). }
  apply empty_false_root in He as [r Hr].
  destruct (Hs _ _ Hr) as (n & Hn & _).
  destruct (Z.lt_ge_cases now (next_tp n)) as [Hlt|Hge].
  { exists st, TimerManager.SleepNotDue.
    rewrite (check_task_iter_not_due st r n now Hr Hn Hlt).
    split_and!; try done.
    - intros Hb. by rewrite Hb in Hr.
    - intros q Hq. pose proof (Hmin r Hr q Hq) as Hle.
      rewrite (nkey_lookup _ _ _ Hn) in Hle. lia. }
  destruct (check_task_iter_due_root st r n now Hs Hsm Hr Hn Hge)
    as (st' & p & np & Hup & Hp0 & Hnp & Hrun).
  destruct (update_top_correct st r Hs Hsm Hr
              (if interval_ns n =? 0 then UINT64_MAX
               else wrap64 (now + interval_ns n)))
    as (st2 & n2 & Hup2 & Hn2 & Hs2 & Hp2 & Hsame2 & Hord2).
  assert (st2 = st') as -> by congruence. assert (n2 = n) as -> by congruence.
  destruct (rekey_payload st r n _ st' r n Hn Hsame2 Hn) as (n' & Hn' & _ & Hk').
  rewrite decide_True in Hk' by done.
  assert (Hk : nkey (nodes st) r ≤ now) by (by rewrite (nkey_lookup _ _ _ Hn)).
  eexists st', _. split; [exact Hrun|]. split_and!; try done; [by apply Hord2|].
  destruct (running np) eqn:Hrn.
  - exists r, n, n', np. split_and!; try done. by apply Hmin.
  - split_and!; try done; [by apply Hmin|]. by exists n, n', p, np.
Qed.

(** X9 at [two_timers], clock reading 150: the root is due. *)
Lemma X9_witness :
  slot_inv two_timers ∧ small two_timers ∧
  heap_ord (nodes two_timers) (buff_ two_timers) ∧
  ∃ st' o, TimerManager.check_task_iter two_timers 150 = Ok (st', o)
    ∧ slot_inv st' ∧ heap_ord (nodes st') (buff_ st').
Proof.
  split; [exact slot_inv_two_timers|]. split; [exact small_two_timers|].
  split; [exact heap_ord_two_timers|].
  destruct (X9_check_task_iter_claims_earliest two_timers 150
              slot_inv_two_timers small_two_timers heap_ord_two_timers)
    as (st' & o & Hrun & Hs' & Ho' & _).
  exists st', o. split_and!; [exact Hrun|exact Hs'|exact Ho'].
Defined.

Lemma check_task_keeps_stopped clock : ∀ st h n,
  slot_inv st → small st →
  nodes st !! h = Some n → next_tp n = UINT64_MAX →
  Forall (λ now, now < UINT64_MAX) clock →
  ∃ st' r n',
    TimerManager.check_task st clock = Ok (st', r)
    ∧ r ≠ Some h
    ∧ slot_inv st' ∧ small st'
    ∧ nodes st' !! h = Some n' ∧ next_tp n' = UINT64_MAX.
Proof.
  induction clock as [|now clock IH]; intros st h n Hs Hsm Hn Hk Hclock.
  { exists st, None, n. by split_and!. }
  apply Forall_cons in Hclock as [Hnow Hclock].
  cbn [TimerManager.check_task].
  destruct (check_task_iter_cases st now Hs Hsm)
    as [[Hrun He]|[(r & nr & Hr & Hnr & Hlt & Hrun)
                  |(r & nr & st' & o & next & Hr & Hnr & Hdue & _ & Hrun & Hcase
                      & Hs' & Hp & Hsame & _)]];
    rewrite Hrun; cbn [bind].
  - by apply (IH st h n).
  - by apply (IH st h n).
  - assert (Hne : h ≠ r).
    { intros ->. assert (nr = n) as -> by congruence. lia. }
    destruct (rekey_payload st r nr next st' h n Hnr Hsame Hn)
      as (n' & Hn' & _ & Hk').
    rewrite decide_False in Hk' by done.
    assert (Hsm' : small st').
    { unfold small. by rewrite (Permutation_length Hp). }
    destruct Hcase as [->|[p ->]].
    + exists st', (Some r), n'. split_and!; try done; congruence.
    + apply (IH st' h n'); try done. congruence.
Qed.

(** X10. [stop] prevents future firings: after [stop] on a timer that is in
    the heap, [check_task] never returns that timer, whatever the clock
    readings (below [UINT64_MAX]) and however many iterations it runs, and
    the timer is still stopped when [check_task] returns. *)
Theorem X10_stopped_timer_is_not_claimed st h (i : nat) clock :
  slot_inv st → small st → buff_ st !! i = Some h →
  Forall (λ now, now < UINT64_MAX) clock →
  ∃ st1 st2 r n2,
    TimerManager.stop st (Some h) = Ok (st1, 0)
    ∧ TimerManager.check_task st1 clock = Ok (st2, r)
    ∧ r ≠ Some h
    ∧ nodes st2 !! h = Some n2 ∧ next_tp n2 = UINT64_MAX.
Proof.
  intros Hs Hsm Hi Hclock. destruct (Hs _ _ Hi) as (n & Hn & _).
  destruct (update_place_correct st h n i UINT64_MAX Hs Hsm Hi Hn)
    as (st1 & Hrun & Hs1 & Hp1 & Hsame & _).
  destruct (rekey_payload st h n _ st1 h n Hn Hsame Hn) as (n1 & Hn1 & _ & Hk1).
  rewrite decide_True in Hk1 by done.
  assert (Hsm1 : small st1).
  { unfold small. by rewrite (Permutation_length Hp1). }
  destruct (check_task_keeps_stopped clock st1 h n1 Hs1 Hsm1 Hn1 Hk1 Hclock)
    as (st2 & r & n2 & Hrun2 & Hr & _ & _ & Hn2 & Hk2).
  exists st1, st2, r, n2. unfold TimerManager.stop. rewrite Hrun.
  by split_and!.
Qed.

(** X10 at [two_timers]: the root is stopped, then three checks run. *)
Lemma X10_witness :
  slot_inv two_timers ∧ small two_timers ∧
  Forall (λ now, now < UINT64_MAX) [150; 250; 350] ∧
  ∃ st1 st2 r,
    TimerManager.stop two_timers (Some 0%nat) = Ok (st1, 0)
    ∧ TimerManager.check_task st1 [150; 250; 350] = Ok (st2, r)
    ∧ r ≠ Some 0%nat.
Proof.
  assert (Hc : Forall (λ now, now < UINT64_MAX) [150; 250; 350]).
  { repeat constructor; unfold UINT64_MAX; lia. }
  split; [exact slot_inv_two_timers|]. split; [exact small_two_timers|].
  split; [exact Hc|].
  destruct (X10_stopped_timer_is_not_claimed two_timers 0%nat 0%nat
              [150; 250; 350] slot_inv_two_timers small_two_timers eq_refl Hc)
    as (st1 & st2 & r & n2 & Hstop & Hrun & Hr & _).
  exists st1, st2, r. split_and!; [exact Hstop|exact Hrun|exact Hr].
Defined.

(** X11. With a single timer in the heap the running test reads the claimed
    node itself: when the timer is due, one iteration of [check_task] advances
    its deadline and returns it if its callback is not running, and skips the
    firing (warning, continue) if it is. *)
Theorem X11_single_timer_overlap_is_skipped st r n now :
  slot_inv st → buff_ st = [r] → nodes st !! r = Some n → next_tp n ≤ now →
  TimerManager.check_task_iter st now =
    Ok (assign st r
          (with_next_tp n (if interval_ns n =? 0 then UINT64_MAX
                           else wrap64 (now + interval_ns n))),
        if running n then TimerManager.ContinueRunning r
        else TimerManager.Return r).
Proof.
  intros Hs Hb Hn Hdue.
  set (next := if interval_ns n =? 0 then UINT64_MAX
               else wrap64 (now + interval_ns n)).
  set (st1 := assign st r (with_next_tp n next)).
  assert (Hr : buff_ st !! 0%nat = Some r) by (by rewrite Hb).
  assert (Hsm : small st) by (unfold small; rewrite Hb; cbn; lia).
  assert (Hs1 : slot_inv st1) by (by apply assign_next_tp_slot_inv).
  assert (Hup : MinHeap.update_top st next = Ok st1).
  { unfold MinHeap.update_top, set_next_tp.
    rewrite (at_0 _ _ Hr). cbn [bind]. rewrite (deref_lookup _ _ _ Hn).
    cbn [bind]. fold st1.
    destruct (percolate_down_correct st1 0 r Hs1 Hsm Hr)
      as (st' & Hrun & _ & Hp & _ & (h & Hh & _ & Hsame) & _).
    change (Z.of_nat 0) with 0 in Hrun. rewrite Hrun. f_equal. apply Hsame.
    apply lookup_lt_Some in Hh. rewrite (Permutation_length Hp) in Hh.
    cbn in Hh. rewrite Hb in Hh. cbn in Hh. lia. }
  unfold TimerManager.check_task_iter.
  assert (MinHeap.empty st = false) as -> by (apply empty_false_root; eauto).
  unfold MinHeap.top. rewrite (at_0 _ _ Hr). cbn [bind].
  rewrite (deref_lookup _ _ _ Hn). cbn [bind].
  destruct (Z.gtb_spec (next_tp n) now); [lia|]. fold next.
  rewrite Hup. cbn [bind].
  unfold MinHeap.subscript. change (Z.to_nat 0) with 0%nat.
  change (buff_ st1) with (buff_ st). rewrite Hr. cbn [bind].
  assert (Hn1 : nodes st1 !! r = Some (with_next_tp n next)).
  { cbn. by rewrite list_lookup_insert_eq by (by eapply lookup_lt_Some). }
  rewrite (deref_lookup _ _ _ Hn1). cbn [bind running with_next_tp].
  by destruct (running n).
Qed.

(** X11 at a single periodic timer whose callback is still running. *)
Lemma X11_witness :
  let n := {| name := "tick"; func := Some 0%nat; index := 0;
              interval_ns := 50; delay_ns := 0; next_tp := 100;
              running := true |} in
  let st := {| nodes := [n]; buff_ := [0%nat] |} in
  slot_inv st ∧ next_tp n ≤ 120 ∧
  TimerManager.check_task_iter st 120 =
    Ok (assign st 0%nat (with_next_tp n 170), TimerManager.ContinueRunning 0%nat).
Proof.
  intros n st.
  assert (Hs : slot_inv st).
  { intros [|i] p Hi; cbn in Hi; simplify_eq. eexists. split; reflexivity. }
  assert (Hdue : next_tp n ≤ 120) by (cbn; lia).
  split; [exact Hs|]. split; [exact Hdue|].
  exact (X11_single_timer_overlap_is_skipped st 0%nat n 120 Hs eq_refl eq_refl Hdue).
Defined.

(** ** The manager's invariant *)

Lemma mgr_inv_lengths st :
  mgr_inv st →
  length (buff_ st) = length (nodes st) ∧
  ∀ p, p ∈ buff_ st ↔ (p < length (nodes st))%nat.
Proof.
  intros (_ & _ & _ & Hp). split.
  - by rewrite (Permutation_length Hp), length_seq.
  - intros p. rewrite Hp, elem_of_seq. lia.
Qed.

Lemma mgr_inv_init : mgr_inv init_state.
Proof.
  split_and!; [apply slot_inv_init| | |done].
  - intros j c _ p q Hp. cbn in Hp. by rewrite lookup_nil in Hp.
  - intros p Hp. cbn in Hp. by apply elem_of_nil in Hp.
Qed.

Lemma mgr_inv_assign st h n n' :
  mgr_inv st → nodes st !! h = Some n →
  index n' = index n → next_tp n' = next_tp n →
  mgr_inv (assign st h n').
Proof.
  intros (Hs & Ho & Hk & Hp) Hn Hidx Hkey.
  assert (He : ∀ p, nkey (nodes (assign st h n')) p = nkey (nodes st) p).
  { intros p. by eapply nkey_assign_same. }
  split_and!.
  - by eapply assign_slot_inv.
  - by eapply heap_ord_ext.
  - intros p Hin. rewrite He. by apply Hk.
  - cbn. by rewrite length_insert.
Qed.

Lemma mgr_inv_rekey st st' r n next :
  mgr_inv st → nodes st !! r = Some n → next ≤ UINT64_MAX →
  slot_inv st' → heap_ord (nodes st') (buff_ st') → buff_ st' ≡ₚ buff_ st →
  nodes_same (nodes (assign st r (with_next_tp n next))) (nodes st') →
  mgr_inv st' ∧ length (nodes st') = length (nodes st).
Proof.
  intros (Hs & Ho & Hk & Hp) Hn Hnext Hs' Ho' Hp' Hsame.
  assert (Hlen : length (nodes st') = length (nodes st)).
  { destruct Hsame as [<- _]. cbn. by rewrite length_insert. }
  split; [|done]. split_and!; try done.
  - intros p Hin. rewrite (nodes_same_nkey _ _ _ Hsame).
    rewrite nkey_assign_next_tp by done. case_decide; [done|].
    apply Hk. by rewrite <- Hp'.
  - by rewrite Hp', Hlen.
Qed.

Lemma mgr_update_place st h tp :
  mgr_inv st → small st → (h < length (nodes st))%nat → tp ≤ UINT64_MAX →
  ∃ st', MinHeap.update_place st h tp = Ok st'
    ∧ mgr_inv st' ∧ length (nodes st') = length (nodes st).
Proof.
  intros Hinv Hsm Hh Htp. pose proof Hinv as (Hs & Ho & _ & _).
  destruct (mgr_inv_lengths st Hinv) as [_ Hin].
  apply Hin, list_elem_of_lookup_1 in Hh as [i Hi].
  destruct (Hs _ _ Hi) as (n & Hn & _).
  destruct (update_place_correct st h n i tp Hs Hsm Hi Hn)
    as (st' & Hrun & Hs' & Hp' & Hsame & _ & Hord).
  exists st'. split; [done|]. eapply mgr_inv_rekey; eauto.
Qed.

Lemma add_timer_run st nm fn ims dms :
  TimerManager.add_timer st nm fn ims dms =
    Ok ({| nodes := nodes st ++
             [ {| name := nm; func := fn; index := wrap32 (MinHeap.size st);
                  interval_ns := wrap64 (1000 * 1000 * ims);
                  delay_ns := wrap64 (1000 * 1000 * dms);
                  next_tp := UINT64_MAX; running := false |} ];
           buff_ := buff_ st ++ [length (nodes st)] |},
        Some (length (nodes st))).
Proof.
  unfold TimerManager.add_timer, make_shared.
  assert (Hh : (nodes st ++ [new_node]) !! length (nodes st) = Some new_node)
    by (by apply list_lookup_middle).
  unfold deref at 1. cbn [nodes]. rewrite Hh. cbn [bind].
  unfold MinHeap.push, set_index, deref, assign. cbn [nodes buff_].
  rewrite list_lookup_insert_eq by (by eapply lookup_lt_Some). cbn [bind].
  do 2 f_equal. cbn [nodes buff_]. f_equal.
  rewrite !insert_app_r_alt by lia. by rewrite Nat.sub_diag.
Qed.

Lemma mgr_inv_push_dormant st node :
  mgr_inv st → Z.of_nat (length (nodes st)) + 1 < 2 ^ 31 →
  next_tp node = UINT64_MAX → index node = Z.of_nat (length (buff_ st)) →
  mgr_inv {| nodes := nodes st ++ [node];
             buff_ := buff_ st ++ [length (nodes st)] |}.
Proof.
  intros Hinv Hlen Hkey Hidx. pose proof Hinv as (Hs & Ho & Hk & Hp).
  destruct (mgr_inv_lengths st Hinv) as [Hbl Hin].
  assert (Hold : ∀ j p, buff_ st !! j = Some p →
            nkey (nodes st ++ [node]) p = nkey (nodes st) p).
  { intros j p Hj. apply nkey_app_l, Hin. by eapply list_elem_of_lookup_2. }
  assert (Hnew : nkey (nodes st ++ [node]) (length (nodes st)) = UINT64_MAX).
  { unfold nkey. by rewrite list_lookup_middle. }
  split_and!; cbn [nodes buff_].
  - intros i p Hi. apply lookup_app_Some in Hi as [Hi|[Hge Hi]].
    + destruct (Hs _ _ Hi) as (np & Hnp & Hpi). exists np.
      split; [by apply lookup_app_l_Some|done].
    + apply list_lookup_singleton_Some in Hi as [Hi <-]. exists node.
      split; [by apply list_lookup_middle|]. lia.
  - intros j c Hjc p q Hpj Hqc.
    assert (Hj : buff_ st !! j = Some p).
    { apply lookup_app_Some in Hpj as [?|[Hge Hpj]]; [done|].
      apply lookup_lt_Some in Hqc. rewrite length_app in Hqc. cbn in Hqc.
      unfold is_child in Hjc. lia. }
    rewrite (Hold _ _ Hj).
    apply lookup_app_Some in Hqc as [Hc|[Hge Hc]].
    + rewrite (Hold _ _ Hc). by eapply Ho.
    + apply list_lookup_singleton_Some in Hc as [_ <-]. rewrite Hnew.
      apply Hk. by eapply list_elem_of_lookup_2.
  - intros p Hin'. cbn [nodes buff_] in *.
    apply elem_of_app in Hin' as [Hin'|Hin'].
    + apply list_elem_of_lookup_1 in Hin' as [j Hj]. rewrite (Hold _ _ Hj).
      apply Hk. by eapply list_elem_of_lookup_2.
    + apply list_elem_of_singleton in Hin' as ->. rewrite Hnew. lia.
  - rewrite length_app. cbn.
    replace (length (nodes st) + 1)%nat with (S (length (nodes st))) by lia.
    rewrite seq_S. cbn. by rewrite Hp.
Qed.

(** X12. [add_timer] (the [Timer] constructor) never fails and returns a
    non-null handle to a new node that is appended to the heap without any
    percolation: the node carries the given name and callback, the interval
    and delay in nanoseconds, is dormant ([next_tp = UINT64_MAX], not
    running) and records the last slot; every older node and slot is
    untouched, and the manager's invariant (slots, heap order, deadlines in
    range) still holds. *)
Theorem X12_add_timer_appends_dormant st nm fn ims dms :
  mgr_inv st → Z.of_nat (length (nodes st)) + 1 < 2 ^ 31 →
  0 ≤ ims < 2 ^ 32 → 0 ≤ dms < 2 ^ 32 →
  let h := length (nodes st) in
  let st' :=
    {| nodes := nodes st ++
         [ {| name := nm; func := fn; index := Z.of_nat (length (buff_ st));
              interval_ns := ims * 1000000; delay_ns := dms * 1000000;
              next_tp := UINT64_MAX; running := false |} ];
       buff_ := buff_ st ++ [h] |} in
  TimerManager.add_timer st nm fn ims dms = Ok (st', Some h)
  ∧ mgr_inv st' ∧ root_is_min st'.
Proof.
  intros Hinv Hlen Hi Hd h st'.
  destruct (mgr_inv_lengths st Hinv) as [Hbl _].
  assert (Hinv' : mgr_inv st').
  { apply mgr_inv_push_dormant; done. }
  split_and!; [|done|].
  - rewrite add_timer_run. unfold st', h, MinHeap.size.
    rewrite wrap32_small by lia. rewrite !wrap64_small by lia.
    replace (1000 * 1000 * ims) with (ims * 1000000) by lia.
    by replace (1000 * 1000 * dms) with (dms * 1000000) by lia.
  - apply root_is_min_of_ord. by destruct Hinv' as (_ & ? & _).
Qed.

(** X12 for the first timer of the test program. *)
Lemma X12_witness :
  mgr_inv init_state ∧ 0 ≤ 5000 < 2 ^ 32 ∧
  ∃ st', TimerManager.add_timer init_state "test func" (Some 0%nat) 5000 0
           = Ok (st', Some 0%nat)
    ∧ mgr_inv st' ∧ root_is_min st'.
Proof.
  assert (Hi : 0 ≤ 5000 < 2 ^ 32) by lia.
  assert (Hd : 0 ≤ 0 < 2 ^ 32) by lia.
  assert (Hl : Z.of_nat (length (nodes init_state)) + 1 < 2 ^ 31) by (cbn; lia).
  split; [exact mgr_inv_init|]. split; [exact Hi|].
  eexists.
  exact (X12_add_timer_appends_dormant init_state "test func" (Some 0%nat)
           5000 0 mgr_inv_init Hl Hi Hd).
Defined.

Lemma mgr_small st :
  mgr_inv st → Z.of_nat (length (nodes st)) < 2 ^ 31 → small st.
Proof.
  intros Hinv Hlen. destruct (mgr_inv_lengths st Hinv) as [Hbl _].
  unfold small. lia.
Qed.

Lemma mgr_check_task_iter st now :
  mgr_inv st → small st →
  ∃ st' o, TimerManager.check_task_iter st now = Ok (st', o)
    ∧ mgr_inv st' ∧ length (nodes st') = length (nodes st)
    ∧ ∀ r, o = TimerManager.Return r → (r < length (nodes st))%nat.
Proof.
  intros Hinv Hsm. pose proof Hinv as (Hs & Ho & _ & _).
  destruct (check_task_iter_cases st now Hs Hsm)
    as [[Hrun He]|[(r & n & Hr & Hn & Hlt & Hrun)
                  |(r & n & st' & o & next & Hr & Hn & Hdue & Hnext & Hrun & Hcase
                      & Hs' & Hp & Hsame & Hord)]].
  - exists st, TimerManager.SleepEmpty. by split_and!.
  - exists st, TimerManager.SleepNotDue. by split_and!.
  - destruct (mgr_inv_rekey st st' r n next) as [Hinv' Hlen]; auto.
    exists st', o. split_and!; try done.
    intros r' ->. destruct Hcase as [[= ->]|[p [=]]]. by eapply lookup_lt_Some.
Qed.

Lemma mgr_check_task clock : ∀ st,
  mgr_inv st → Z.of_nat (length (nodes st)) < 2 ^ 31 →
  ∃ st' r, TimerManager.check_task st clock = Ok (st', r)
    ∧ mgr_inv st' ∧ length (nodes st') = length (nodes st)
    ∧ ∀ h, r = Some h → (h < length (nodes st))%nat.
Proof.
  induction clock as [|now clock IH]; intros st Hinv Hlen.
  { exists st, None. by split_and!. }
  cbn [TimerManager.check_task].
  destruct (mgr_check_task_iter st now Hinv (mgr_small _ Hinv Hlen))
    as (st1 & o & Hrun & Hinv1 & Hlen1 & Hret).
  rewrite Hrun. cbn [bind].
  assert (Hrec : ∃ st' r, TimerManager.check_task st1 clock = Ok (st', r)
            ∧ mgr_inv st' ∧ length (nodes st') = length (nodes st)
            ∧ ∀ h, r = Some h → (h < length (nodes st))%nat).
  { destruct (IH st1 Hinv1) as (st' & r & ? & ? & ? & ?); [lia|].
    exists st', r. rewrite <- Hlen1. split_and!; try done; congruence. }
  destruct o as [| |p|r]; try done.
  exists st1, (Some r). split_and!; try done. intros h [= <-]. by apply Hret.
Qed.

Lemma mgr_check_and_dispatch st clock :
  mgr_inv st → Z.of_nat (length (nodes st)) < 2 ^ 31 →
  ∃ st' evs, TimerManager.check_and_dispatch st clock = Ok (st', evs)
    ∧ mgr_inv st' ∧ length (nodes st') = length (nodes st)
    ∧ (length evs ≤ 1)%nat.
Proof.
  intros Hinv Hlen. unfold TimerManager.check_and_dispatch.
  destruct (mgr_check_task clock st Hinv Hlen)
    as (st1 & r & Hrun & Hinv1 & Hlen1 & Hr).
  rewrite Hrun. cbn [bind]. destruct r as [h|].
  - destruct (lookup_lt_is_Some_2 (nodes st1) h) as [n Hn].
    { rewrite Hlen1. by apply Hr. }
    rewrite (deref_lookup _ _ _ Hn). cbn [bind].
    set (st2 := assign st1 h (with_running n true)).
    assert (Hn2 : nodes st2 !! h = Some (with_running n true)).
    { cbn. by rewrite list_lookup_insert_eq by (by eapply lookup_lt_Some). }
    assert (Hinv2 : mgr_inv st2) by (by eapply mgr_inv_assign).
    rewrite (deref_lookup _ _ _ Hn2). cbn [bind].
    eexists _, _. split; [reflexivity|]. split_and!.
    + by eapply mgr_inv_assign.
    + cbn. by rewrite !length_insert.
    + cbn. lia.
  - exists st1, []. split_and!; try done. cbn. lia.
Qed.

Lemma run_mgr_op_correct st op :
  mgr_inv st → Z.of_nat (length (nodes st)) + 1 < 2 ^ 31 →
  legal_mgr_ops (length (nodes st)) [op] = true →
  ∃ st', run_mgr_op st op = Ok st' ∧ mgr_inv st' ∧
    length (nodes st') =
      match op with
      | MAddTimer _ _ _ _ => S (length (nodes st))
      | _ => length (nodes st)
      end.
Proof.
  intros Hinv Hlen Hleg.
  assert (Hsm : small st) by (apply mgr_small; [done|lia]).
  destruct (mgr_inv_lengths st Hinv) as [Hbl Hin].
  destruct op as [nm fn ims dms|[h|] now|[h|]|[h|] ms now|clock];
    cbn [run_mgr_op]; cbn in Hleg; rewrite ?andb_true_r in Hleg;
    try apply Nat.ltb_lt in Hleg.
  - rewrite add_timer_run. cbn [bind fst]. eexists. split; [reflexivity|].
    split.
    + apply mgr_inv_push_dormant; try done. cbn. unfold MinHeap.size.
      rewrite wrap32_small; lia.
    + cbn. rewrite length_app. cbn. lia.
  - destruct (lookup_lt_is_Some_2 _ _ Hleg) as [n Hn].
    destruct (mgr_update_place st h (wrap64 (now + delay_ns n)) Hinv Hsm Hleg)
      as (st' & Hrun & Hinv' & Hlen').
    { unfold wrap64, UINT64_MAX.
      pose proof (Z.mod_pos_bound (now + delay_ns n) (2 ^ 64)). lia. }
    exists st'. unfold TimerManager.start.
    rewrite (deref_lookup _ _ _ Hn). cbn [bind]. rewrite Hrun. by split_and!.
  - exists st. by split_and!.
  - destruct (mgr_update_place st h UINT64_MAX Hinv Hsm Hleg)
      as (st' & Hrun & Hinv' & Hlen'); [lia|].
    exists st'. unfold TimerManager.stop. rewrite Hrun. by split_and!.
  - exists st. by split_and!.
  - destruct (lookup_lt_is_Some_2 _ _ Hleg) as [n Hn].
    set (n0 := with_interval_ns n (wrap32 (wrap32 (ms * 1000) * 1000))).
    set (st0 := assign st h n0).
    assert (Hinv0 : mgr_inv st0) by (by eapply mgr_inv_assign).
    assert (Hn0 : nodes st0 !! h = Some n0).
    { cbn. by rewrite list_lookup_insert_eq by (by eapply lookup_lt_Some). }
    assert (Hlen0 : length (nodes st0) = length (nodes st)).
    { cbn. by rewrite length_insert. }
    destruct (mgr_update_place st0 h (wrap64 (now + interval_ns n0)) Hinv0)
      as (st' & Hrun & Hinv' & Hlen'); [done|lia| |].
    { unfold wrap64, UINT64_MAX.
      pose proof (Z.mod_pos_bound (now + interval_ns n0) (2 ^ 64)). lia. }
    exists st'. unfold TimerManager.set_interval.
    rewrite (deref_lookup _ _ _ Hn). cbn [bind]. fold n0 st0.
    rewrite (deref_lookup _ _ _ Hn0). cbn [bind]. rewrite Hrun.
    split_and!; try done. lia.
  - exists st. by split_and!.
  - destruct (mgr_check_and_dispatch st clock Hinv) as (st' & evs & Hrun & ? & ? & _);
      [lia|].
    exists st'. rewrite Hrun. by split_and!.
Qed.

Lemma run_mgr_ops_correct ops : ∀ st,
  mgr_inv st →
  Z.of_nat (length (nodes st)) + Z.of_nat (length ops) < 2 ^ 31 →
  legal_mgr_ops (length (nodes st)) ops = true →
  ∃ st', run_mgr_ops ops st = Ok st' ∧ mgr_inv st'.
Proof.
  induction ops as [|op ops IH]; intros st Hinv Hlen Hleg; [by exists st|].
  cbn [run_mgr_ops]. cbn [length] in Hlen.
  destruct (run_mgr_op_correct st op Hinv) as (st1 & Hrun & Hinv1 & Hl1); [lia| |].
  { destruct op; cbn in Hleg |- *; try done;
      by apply andb_true_iff in Hleg as [-> _]. }
  rewrite Hrun. cbn [bind]. apply IH; [done| |].
  - rewrite Hl1. destruct op; lia.
  - rewrite Hl1. destruct op; cbn in Hleg; try done;
      by apply andb_true_iff in Hleg as [_ ->].
Qed.

(** X13. The manager as a whole: after any sequence of [Timer] constructions,
    [start], [stop] and [set_interval] calls (on null handles or handles of
    timers made earlier, with any arguments and clock readings) and worker
    dispatches, starting from the manager's initial state, no operation has
    failed, every timer ever made is in the heap exactly once, every node
    sits in the slot it records, and [top()] is a timer with the earliest
    deadline, although [add_timer] pushes without percolating. *)
Theorem X13_manager_keeps_heap ops :
  legal_mgr_ops 0 ops = true → Z.of_nat (length ops) < 2 ^ 31 →
  ∃ st, run_mgr_ops ops init_state = Ok st
    ∧ mgr_inv st ∧ root_is_min st
    ∧ ∀ v, v ∈ buff_ st →
        ∃ n, deref st v = Ok n ∧ MinHeap.at_ st (index n) = Ok v.
Proof.
  intros Hleg Hlen.
  destruct (run_mgr_ops_correct ops init_state mgr_inv_init) as (st & Hrun & Hinv).
  { cbn. lia. }
  { done. }
  exists st. pose proof Hinv as (Hs & Ho & _). split_and!; try done.
  - by apply root_is_min_of_ord.
  - intros v Hv. by apply slot_inv_at.
Qed.

(** X13 for a run shaped like [test_timer] in the test program. *)
Lemma X13_witness :
  let ops := [ MAddTimer "test func" (Some 0%nat) 5000 0;
               MStart (Some 0%nat) 100;
               MAddTimer "other func" (Some 1%nat) 3000 2000;
               MStart (Some 1%nat) 200;
               MDispatch [5000000200; 5000000300];
               MStop (Some 1%nat);
               MSetInterval (Some 0%nat) 1000 400;
               MDispatch [1000000500] ] in
  legal_mgr_ops 0 ops = true ∧ Z.of_nat (length ops) < 2 ^ 31 ∧
  ∃ st, run_mgr_ops ops init_state = Ok st ∧ mgr_inv st ∧ root_is_min st.
Proof.
  intros ops.
  assert (Hlen : Z.of_nat (length ops) < 2 ^ 31) by (cbn; lia).
  split; [reflexivity|]. split; [exact Hlen|].
  destruct (X13_manager_keeps_heap ops eq_refl Hlen) as (st & Hrun & Hinv & Hmin & _).
  exists st. split_and!; [exact Hrun|exact Hinv|exact Hmin].
Defined.
